(** * Scene timeline, preview player and export multiplexer

    A shallow embedding of [src/services/videoExporter.ts] (the export
    multiplexer: asset preload, duration resolution, timeline layout, codec
    negotiation, the clocked render loop and the recorder's finalisation)
    and of the timeline part of the [Player] component (its [timeline]
    memo, [totalDuration] and [handleGlobalScrub]), with the [Scene] type of
    the repository's [types.ts].

    Conventions of the embedding.
    - A JavaScript [number] holding seconds is an exact rational ([Q]): the
      arithmetic of the model is the ideal one, and [NaN] and the infinities
      are outside it.  The statements keep to what doubles share with it:
      comparisons, [Math.max], and the sums and products as the code forms
      them, left to right; none rests on an identity that only exact
      arithmetic has, such as [(x / d) * d = x].  An optional field
      ([x?: number]) is an [option].
    - [a || b] on numbers is [jsOr]: [undefined] and [0] are falsy.
    - The browser is an oracle ([Env]): which images load, which audio
      decodes, which MIME types the recorder supports, what the audio clock
      reads each time the render loop looks at it, and which chunks the
      recorder hands over.  Runs in which the recorder raises an [error]
      event are not covered; the progress callback, a pure notification, and
      the pan/zoom arithmetic of a drawn frame are left out.
    - A run of an [async] function is a pair of the browser calls it made,
      in order, and the way its promise ended.  The calls are those on the
      canvas, the audio graph, the recorder and the tracks; the loads of the
      preload are described by the oracle and are not calls of the run.

    The second part of the file adds the rest of the player (transport
    controls, the scene-loading effect that follows a change of scene, the
    duration editor), the app's handlers around an export, the WAV wrapper
    of [audioUtils.ts] and the retry helper of [geminiService.ts]. *)

From Stdlib Require Import QArith Qminmax Lqa ZArith Lia List String Bool.
From Stdlib Require Import DecimalString.
Import ListNotations.

Local Open Scope Q_scope.

(** ** JavaScript values used by the duration code *)

Definition number := Q.

(** Strict comparisons of the source, as booleans. *)
Definition Qlt_bool (x y : number) : bool := negb (Qle_bool y x).

(** [x || dflt] where [x] may be [undefined]: a number is truthy unless it
    is zero. *)
Definition jsOr (x : option number) (dflt : number) : number :=
  match x with
  | Some v => if Qeq_bool v 0 then dflt else v
  | None => dflt
  end.

(** [Math.max] of two numbers. *)
Definition Math_max (x y : number) : number := Qmax x y.

(** A string is truthy unless it is empty; [s || dflt] on strings. *)
Definition truthyStr (x : option string) : option string :=
  match x with
  | Some s => if String.eqb s EmptyString then None else Some s
  | None => None
  end.

Definition jsOrStr (x : option string) (dflt : string) : string :=
  match truthyStr x with
  | Some s => s
  | None => dflt
  end.

(** [Array.prototype.findIndex]: the index of the first match, or [-1]. *)
Fixpoint findIndexFrom {A : Type} (p : A -> bool) (i : Z) (l : list A) : Z :=
  match l with
  | [] => (-1)%Z
  | x :: rest => if p x then i else findIndexFrom p (i + 1)%Z rest
  end.


(** ** types.ts *)

Inductive ImageAspect := SixteenNine | NineSixteen | OneOne.

Inductive ExportFormat := Video720p | Video1080p | Video2K | Video4K | AudioOnly.

Inductive SceneStatus :=
  | pending | generating_image | generating_audio | ready | error.

Record Scene := mkScene {
  id : string;
  sequence : N;
  scriptText : string;
  visualPrompt : string;
  estimatedDuration : number;
  manualDuration : option number;
  imageUrl : option string;
  audioUrl : option string;
  audioDuration : option number;
  status : SceneStatus;
  error_ : option string
}.

(** [{ ...scene, manualDuration: val }], the update both editors send. *)
Definition withManualDuration (scene : Scene) (val : number) : Scene :=
  {| id := id scene; sequence := sequence scene;
     scriptText := scriptText scene; visualPrompt := visualPrompt scene;
     estimatedDuration := estimatedDuration scene;
     manualDuration := Some val;
     imageUrl := imageUrl scene; audioUrl := audioUrl scene;
     audioDuration := audioDuration scene;
     status := status scene; error_ := error_ scene |}.

(** ** Browser objects *)

Record Image := mkImage { width : Z; height : Z }.

Record AudioBuffer := mkAudioBuffer { duration : number }.

Record Blob := mkBlob { size : N; type : string }.

(** [new Blob(chunks, { type })] *)
Definition newBlob (chunks : list Blob) (ty : string) : Blob :=
  {| size := fold_left N.add (map size chunks) 0%N; type := ty |}.

(** How a promise ends.  [Pending] is a promise that never settles. *)
Inductive Settled (A : Type) :=
  | Fulfilled (value : A)
  | Rejected (reason : string)
  | Pending.
Arguments Fulfilled {A} value.
Arguments Rejected {A} reason.
Arguments Pending {A}.

(** [Promise.all]: the values in order when every promise fulfils, else a
    rejection.  When several promises reject, the one that rejects first in
    time wins; that order is the network's, and the model takes the first
    in array order. *)
Fixpoint Promise_all {A : Type} (ps : list (Settled A)) : Settled (list A) :=
  match ps with
  | [] => Fulfilled []
  | Fulfilled v :: rest =>
      match Promise_all rest with
      | Fulfilled vs => Fulfilled (v :: vs)
      | Rejected r => Rejected r
      | Pending => Pending
      end
  | Rejected r :: _ => Rejected r
  | Pending :: rest =>
      match Promise_all rest with
      | Rejected r => Rejected r
      | _ => Pending
      end
  end.

(** The tracks a capture creates, and the browser calls of a run: those on
    the canvas, the audio graph, the recorder and the tracks.  The loads of
    the preload (the image, [fetch], [decodeAudioData]) are not among them:
    they are started for every scene, and the oracle tells how each ends. *)
Inductive Track := CanvasVideoTrack | DestinationAudioTrack.

Inductive Frame :=
  | DrawImage (sceneId : string)
  | FillBlack.

Inductive Call :=
  | CreateCanvas (w h : Z)
  | NewAudioContext
  | CreateMediaStreamDestination
  | CaptureStream (fps : Z)
  | NewMediaRecorder (mimeType : string) (videoBitsPerSecond : option Z)
  | AudioContextResume
  | SourceStart (sceneId : string) (when : number)
  | RecorderStart
  | Paint (f : Frame)
  | RecorderStop
  | TrackStop (t : Track)
  | AudioContextClose.

(** The oracle standing for the browser during one export. *)
Record Env := mkEnv {
  canvasContext : bool;
  loadImage : string -> option Image;
  decodeAudio : string -> option AudioBuffer;
  isTypeSupported : string -> bool;
  clockAtResume : number;
  clockReadings : list number;
  dataavailable : list Blob
}.

(** ** A run: the calls made so far and how the computation ended *)

Module Run.

Definition t (A : Type) : Type := (list Call * Settled A)%type.

Definition ret {A} (a : A) : t A := ([], Fulfilled a).

Definition bind {A B} (m : t A) (k : A -> t B) : t B :=
  match m with
  | (calls, Fulfilled a) => let (calls', r) := k a in ((calls ++ calls')%list, r)
  | (calls, Rejected reason) => (calls, Rejected reason)
  | (calls, Pending) => (calls, Pending)
  end.

Definition call (c : Call) : t unit := ([c], Fulfilled tt).

Definition throw {A} (reason : string) : t A := ([], Rejected reason).

(** [await p] for a promise that is already described by how it ends. *)
Definition await {A} (p : Settled A) : t A := ([], p).

Definition calls {A} (m : t A) : list Call := fst m.
Definition outcome {A} (m : t A) : Settled A := snd m.

End Run.

Declare Scope run_scope.
Delimit Scope run_scope with run.
Notation "x <- m ;; k" := (Run.bind m (fun x => k))
  (at level 61, m at next level, right associativity) : run_scope.
Notation "m ;;; k" := (Run.bind m (fun _ => k))
  (at level 61, right associativity) : run_scope.

Local Open Scope run_scope.
Local Open Scope string_scope.

(** ** services/videoExporter.ts *)

Module Exporter.

Record ExportOptions := mkOptions {
  aspectRatio : ImageAspect;
  format : ExportFormat
}.

(** A scene after preload: [{ ...scene, img, audioBuffer, finalDuration }]. *)
Record LoadedScene := mkLoaded {
  scene : Scene;
  img : Image;
  audioBuffer : option AudioBuffer;
  finalDuration : number
}.

(** A timeline entry: [{ ...s, startTime: start, endTime: totalDuration }]. *)
Record TimelineScene := mkEntry {
  loaded : LoadedScene;
  startTime : number;
  endTime : number
}.

(** [Math.max(audioBuffer?.duration || 0,
              scene.manualDuration || scene.estimatedDuration || 5)] *)
Definition finalDurationOf (audioBuffer : option AudioBuffer) (scene : Scene)
  : number :=
  Math_max
    (jsOr (option_map duration audioBuffer) 0)
    (jsOr (Some (jsOr (manualDuration scene) (estimatedDuration scene))) 5).

(** The image promise of one scene: [onload] resolves, [onerror] and a
    missing URL reject. *)
Definition loadSceneImage (env : Env) (scene : Scene) : Settled Image :=
  match truthyStr (imageUrl scene) with
  | Some url =>
      match loadImage env url with
      | Some image => Fulfilled image
      | None =>
          Rejected ("Failed to load image for scene "
                    ++ NilZero.string_of_uint (N.to_uint (sequence scene)))
      end
  | None => Rejected "No image URL"
  end.

(** The audio of one scene: [null] without a URL and when the fetch or
    the decode throws (the [catch] only logs a warning). *)
Definition loadSceneAudio (env : Env) (scene : Scene) : option AudioBuffer :=
  match truthyStr (audioUrl scene) with
  | Some url => decodeAudio env url
  | None => None
  end.

(** The body of [scenes.map(async (scene) => ...)]. *)
Definition loadScene (env : Env) (scene : Scene) : Settled LoadedScene :=
  match loadSceneImage env scene with
  | Fulfilled image =>
      let audioBuffer := loadSceneAudio env scene in
      let finalDuration := finalDurationOf audioBuffer scene in
      Fulfilled {| scene := scene; img := image; audioBuffer := audioBuffer;
                   finalDuration := finalDuration |}
  | Rejected reason => Rejected reason
  | Pending => Pending
  end.

Definition preload (env : Env) (scenes : list Scene)
  : Settled (list LoadedScene) :=
  Promise_all (map (loadScene env) scenes).

(** "Calculate Timeline": the [map] whose callback advances the captured
    [totalDuration]; the result is the entries and the final total. *)
Fixpoint timelineFrom (totalDuration : number) (loadedScenes : list LoadedScene)
  : list TimelineScene * number :=
  match loadedScenes with
  | [] => ([], totalDuration)
  | s :: rest =>
      let start := totalDuration in
      let totalDuration := totalDuration + finalDuration s in
      let (entries, total) := timelineFrom totalDuration rest in
      ({| loaded := s; startTime := start; endTime := totalDuration |}
         :: entries, total)
  end.

Definition timelineScenes (loadedScenes : list LoadedScene)
  : list TimelineScene :=
  fst (timelineFrom 0 loadedScenes).

Definition totalDuration (loadedScenes : list LoadedScene) : number :=
  snd (timelineFrom 0 loadedScenes).

(** ** Codec negotiation *)

(** The double quote inside the two codec strings. *)
Definition dquote : string := String (Ascii.ascii_of_nat 34) EmptyString.

Definition mimeTypes : list string :=
  [ "video/mp4; codecs=" ++ dquote ++ "avc1.42E01E, mp4a.40.2" ++ dquote;
    "video/mp4; codecs=" ++ dquote ++ "avc1.64001E, mp4a.40.2" ++ dquote;
    "video/mp4";
    "video/webm; codecs=vp9";
    "video/webm" ].

Definition selectedMimeType (env : Env) : string :=
  let selected := jsOrStr (find (isTypeSupported env) mimeTypes) EmptyString in
  if String.eqb selected EmptyString then
    if isTypeSupported env "video/mp4" then "video/mp4"
    else if isTypeSupported env "video/webm" then "video/webm"
    else selected
  else selected.

Definition bitrate (format : ExportFormat) : Z :=
  match format with
  | Video720p => 2500000
  | Video1080p => 5000000
  | Video2K => 8000000
  | Video4K => 15000000
  | AudioOnly => 5000000
  end.

Definition audioMimeTypes : list string :=
  [ "audio/mp4"; "audio/aac"; "audio/webm"; "audio/ogg" ].

Definition selectedMime (env : Env) : string :=
  jsOrStr (find (isTypeSupported env) audioMimeTypes) EmptyString.

(** ** Recorder handlers of the video export *)

(** [recorder.ondataavailable]: empty chunks are dropped. *)
Definition ondataavailable (chunks : list Blob) (data : Blob) : list Blob :=
  if (0 <? size data)%N then (chunks ++ [data])%list else chunks.

Definition videoBlob (env : Env) : Blob :=
  newBlob (fold_left ondataavailable (dataavailable env) [])
          (jsOrStr (Some (selectedMimeType env)) "video/mp4").

(** [recorder.onstop]: build the blob, clean up, settle. *)
Definition onstop (env : Env) : Run.t Blob :=
  let blob := videoBlob env in
  Run.call (TrackStop CanvasVideoTrack) ;;;
  Run.call (TrackStop DestinationAudioTrack) ;;;
  Run.call (TrackStop CanvasVideoTrack) ;;;
  Run.call AudioContextClose ;;;
  if (size blob =? 0)%N
  then Run.throw "Recording failed: Output file is empty."
  else Run.ret blob.

(** ** Audio scheduling and the render loop *)

(** [timelineScenes.forEach]: one buffer source per scene with audio. *)
Fixpoint scheduleAudio (audioStartTime : number) (entries : list TimelineScene)
  : list Call :=
  match entries with
  | [] => []
  | e :: rest =>
      match audioBuffer (loaded e) with
      | Some _ =>
          SourceStart (id (scene (loaded e))) (audioStartTime + startTime e)
            :: scheduleAudio audioStartTime rest
      | None => scheduleAudio audioStartTime rest
      end
  end.

(** The test of [timelineScenes.find]. *)
Definition isActive (elapsedSecs : number) (s : TimelineScene) : bool :=
  Qle_bool (startTime s) elapsedSecs && Qlt_bool elapsedSecs (endTime s).

Definition currentScene (entries : list TimelineScene) (elapsedSecs : number)
  : option TimelineScene :=
  find (isActive elapsedSecs) entries.

(** What one pass of the [while (true)] body does at a clock reading:
    leave the loop, or paint a frame and wait for the next pass. *)
Inductive Pass :=
  | Break
  | Painted (f : Frame).

Definition renderPass (entries : list TimelineScene) (totalDuration : number)
                      (audioStartTime currentAudioTime : number) : Pass :=
  let elapsedSecs := Math_max 0 (currentAudioTime - audioStartTime) in
  if Qle_bool totalDuration elapsedSecs then Break
  else
    match currentScene entries elapsedSecs with
    | Some s => Painted (DrawImage (id (scene (loaded s))))
    | None => Painted FillBlack
    end.

(** [renderLoop]: one pass per clock reading; [recorder.stop()] after the
    loop.  A clock that never reaches the total leaves the promise
    pending. *)
Fixpoint renderLoop (entries : list TimelineScene) (totalDuration : number)
                    (audioStartTime : number) (readings : list number)
  : Run.t unit :=
  match readings with
  | [] => ([], Pending)
  | currentAudioTime :: later =>
      match renderPass entries totalDuration audioStartTime currentAudioTime with
      | Break => Run.call RecorderStop
      | Painted f =>
          Run.call (Paint f) ;;;
          renderLoop entries totalDuration audioStartTime later
      end
  end.

(** ** exportAudioOnly *)

(** The body of [scenes.map(async (scene) => ...)] of the audio export:
    it never rejects. *)
Definition loadAudio (env : Env) (scene : Scene)
  : Settled (option AudioBuffer) :=
  Fulfilled (loadSceneAudio env scene).

(** [Math.max(buffer?.duration || 0,
              scene.manualDuration || scene.estimatedDuration || 5)] *)
Definition sceneDuration (buffer : option AudioBuffer) (scene : Scene)
  : number :=
  Math_max
    (jsOr (option_map duration buffer) 0)
    (jsOr (Some (jsOr (manualDuration scene) (estimatedDuration scene))) 5).

(** [loadedAudios.forEach((buffer, i) => ...)] with [scenes[i]]. *)
Fixpoint scheduleBuffers (startTime totalDuration : number)
                         (loadedAudios : list (option AudioBuffer))
                         (scenes : list Scene) : list Call * number :=
  match loadedAudios, scenes with
  | buffer :: buffers, scene :: rest =>
      let d := sceneDuration buffer scene in
      let (calls, total) :=
        scheduleBuffers startTime (totalDuration + d) buffers rest in
      match buffer with
      | Some _ =>
          (SourceStart (id scene) (startTime + totalDuration) :: calls, total)
      | None => (calls, total)
      end
  | _, _ => ([], totalDuration)
  end.

Definition audioBlob (env : Env) : Blob :=
  newBlob (dataavailable env) (jsOrStr (Some (selectedMime env)) "audio/mp4").

Definition audio_onstop (env : Env) : Run.t Blob :=
  let blob := audioBlob env in
  Run.call AudioContextClose ;;;
  if (size blob =? 0)%N
  then Run.throw "Audio export failed: Empty file"
  else Run.ret blob.

Fixpoint audioLoop (totalDuration startTime : number) (readings : list number)
  : Run.t unit :=
  match readings with
  | [] => ([], Pending)
  | currentTime :: later =>
      let elapsed := currentTime - startTime in
      if Qle_bool totalDuration elapsed then Run.call RecorderStop
      else audioLoop totalDuration startTime later
  end.

(** The executor of the promise [exportAudioOnly] returns; the recorder's
    [stop] event, and with it [onstop], follows [recorder.stop()]. *)
Definition audioExecutor (env : Env) (loadedAudios : list (option AudioBuffer))
                         (scenes : list Scene) : Run.t Blob :=
  Run.call RecorderStart ;;;
  Run.call AudioContextResume ;;;
  let startTime := clockAtResume env + (1 # 10) in
  let (sources, totalDuration) :=
    scheduleBuffers startTime 0 loadedAudios scenes in
  (sources, Fulfilled tt) ;;;
  audioLoop totalDuration startTime (clockReadings env) ;;;
  audio_onstop env.

Definition exportAudioOnly (env : Env) (scenes : list Scene) : Run.t Blob :=
  Run.call NewAudioContext ;;;
  Run.call CreateMediaStreamDestination ;;;
  loadedAudios <- Run.await (Promise_all (map (loadAudio env) scenes)) ;;
  Run.call (NewMediaRecorder (selectedMime env) None) ;;;
  audioExecutor env loadedAudios scenes.

(** ** exportVideo *)

Definition baseResolution (format : ExportFormat) : Z * Z :=
  match format with
  | Video720p => (1280, 720)
  | Video1080p => (1920, 1080)
  | Video2K => (2560, 1440)
  | Video4K => (3840, 2160)
  | AudioOnly => (1920, 1080)
  end%Z.

Definition resolution (format : ExportFormat) (aspectRatio : ImageAspect)
  : Z * Z :=
  let (baseWidth, baseHeight) := baseResolution format in
  match aspectRatio with
  | NineSixteen => (baseHeight, baseWidth)
  | OneOne => (baseHeight, baseHeight)
  | SixteenNine => (baseWidth, baseHeight)
  end.

(** The executor of the promise [exportVideo] returns: schedule all the
    audio, start the recorder, run the render loop; the recorder's [stop]
    event, and with it [onstop], follows [recorder.stop()]. *)
Definition executor (env : Env) (entries : list TimelineScene)
                    (total : number) : Run.t Blob :=
  Run.call AudioContextResume ;;;
  let audioStartTime := clockAtResume env + (1 # 10) in
  (scheduleAudio audioStartTime entries, Fulfilled tt) ;;;
  Run.call RecorderStart ;;;
  renderLoop entries total audioStartTime (clockReadings env) ;;;
  onstop env.

(** The video export proper, for a format other than [AudioOnly]. *)
Definition exportFrames (env : Env) (scenes : list Scene)
    (fmt : ExportFormat) (aspectRatio : ImageAspect) : Run.t Blob :=
  let (width, height) := resolution fmt aspectRatio in
  Run.call (CreateCanvas width height) ;;;
  (if canvasContext env then Run.ret tt
   else Run.throw "Could not create canvas context") ;;;
  Run.call (Paint FillBlack) ;;;
  Run.call NewAudioContext ;;;
  Run.call CreateMediaStreamDestination ;;;
  loadedScenes <- Run.await (preload env scenes) ;;
  Run.call (CaptureStream 30) ;;;
  Run.call (NewMediaRecorder (selectedMimeType env) (Some (bitrate fmt))) ;;;
  executor env (timelineScenes loadedScenes) (totalDuration loadedScenes).

Definition exportVideo (env : Env) (scenes : list Scene)
                       (options : ExportOptions) : Run.t Blob :=
  match format options with
  | AudioOnly => exportAudioOnly env scenes
  | fmt => exportFrames env scenes fmt (aspectRatio options)
  end.

End Exporter.

(** ** components/Player.tsx: the timeline and the scrubber *)

(** [x || y] where both sides may be [undefined]. *)
Definition jsOrOpt (x y : option number) : option number :=
  match x with
  | Some v => if Qeq_bool v 0 then y else Some v
  | None => y
  end.

Module Player.

(** [{ ...s, duration, start, end: accumulated }] *)
Record TimelineEntry := mkEntry {
  scene : Scene;
  duration : number;
  start : number;
  end_ : number
}.

(** [Math.max(s.manualDuration || s.audioDuration || s.estimatedDuration || 5,
              s.audioDuration || 0)] *)
Definition durationOf (s : Scene) : number :=
  Math_max
    (jsOr (Some (jsOr (jsOrOpt (manualDuration s) (audioDuration s))
                      (estimatedDuration s))) 5)
    (jsOr (audioDuration s) 0).

(** The [useMemo] body: [scenes.map] advancing [accumulated]. *)
Fixpoint timelineFrom (accumulated : number) (scenes : list Scene)
  : list TimelineEntry :=
  match scenes with
  | [] => []
  | s :: rest =>
      let duration := durationOf s in
      let start := accumulated in
      let accumulated := accumulated + duration in
      {| scene := s; duration := duration; start := start; end_ := accumulated |}
        :: timelineFrom accumulated rest
  end.

Definition timeline (scenes : list Scene) : list TimelineEntry :=
  timelineFrom 0 scenes.

(** [timeline.length > 0 ? timeline[timeline.length - 1].end : 0] *)
Definition totalDuration (timeline : list TimelineEntry) : number :=
  if (0 <? List.length timeline)%nat then
    match nth_error timeline (List.length timeline - 1) with
    | Some e => end_ e
    | None => 0
    end
  else 0.

(** The React state the scrubber writes. *)
Record State := mkState {
  isPlaying : bool;
  currentSceneIndex : Z;
  sceneProgress : number
}.




End Player.

(** ** The duration rule as the specification words it

    [max(manualDuration ?? 0, resolvedAudioDuration ?? 0,
         estimatedDuration ?? 0, floor)], kept apart from the code's rule
    to compare the two. *)

Definition nullish (x : option number) : number :=
  match x with
  | Some v => v
  | None => 0
  end.

Definition specFinalDuration (floor : number)
    (resolvedAudioDuration : option number) (scene : Scene) : number :=
  Qmax (Qmax (nullish (manualDuration scene)) (nullish resolvedAudioDuration))
       (Qmax (estimatedDuration scene) floor).

(** The sum of a list of durations, in timeline order. *)
Definition sumDurations (ds : list number) : number :=
  fold_left Qplus ds 0.

(** ** Sample data *)

Definition sampleScene (n : N) (sid : string) (estimated : number)
    (manual : option number) (image audio : option string)
    (recorded : option number) : Scene :=
  {| id := sid; sequence := n; scriptText := "Narration";
     visualPrompt := "Prompt"; estimatedDuration := estimated;
     manualDuration := manual; imageUrl := image; audioUrl := audio;
     audioDuration := recorded; status := ready; error_ := None |}.

(** Scenario A: audio of 4.0 s, none, 6.5 s; estimates of 5, 3 and 6 s. *)
Definition scenarioA : list Scene :=
  [ sampleScene 0 "s0" 5 None (Some "img0") (Some "aud0") (Some 4);
    sampleScene 1 "s1" 3 None (Some "img1") None None;
    sampleScene 2 "s2" 6 None (Some "img2") (Some "aud2") (Some (13 # 2)) ].

Definition decodeA (url : string) : option AudioBuffer :=
  if String.eqb url "aud0" then Some {| duration := 4 |}
  else if String.eqb url "aud2" then Some {| duration := 13 # 2 |}
  else None.

(** A browser in which everything works: every image loads, the clock
    advances past the total, and the recorder hands over one chunk. *)
Definition envA : Env :=
  {| canvasContext := true;
     loadImage := fun _ => Some {| width := 1024; height := 768 |};
     decodeAudio := decodeA;
     isTypeSupported := fun t => String.eqb t "video/webm";
     clockAtResume := 0;
     clockReadings := [0; 1; 6; 9; 20];
     dataavailable := [ {| size := 4096; type := "video/webm" |} ] |}.

Definition options1080 : Exporter.ExportOptions :=
  {| Exporter.aspectRatio := SixteenNine; Exporter.format := Video1080p |}.


(** ** Vocabulary of the statements *)

(** The decoded audio length of a scene in seconds, 0 without a buffer. *)
Definition audioSeconds (audioBuffer : option AudioBuffer) : number :=
  nullish (option_map duration audioBuffer).

(** An optional number that is present and not zero. *)
Definition isSet (x : option number) : Prop :=
  exists v, x = Some v /\ ~ v == 0.

(** The candidate the exporter puts against the audio length: the manual
    duration when one is set, else the estimate unless it is zero, else
    five seconds. *)
Inductive InForce (scene : Scene) : number -> Prop :=
  | manual_in_force (m : number) :
      manualDuration scene = Some m -> ~ m == 0 -> InForce scene m
  | estimate_in_force :
      ~ isSet (manualDuration scene) -> ~ estimatedDuration scene == 0 ->
      InForce scene (estimatedDuration scene)
  | default_in_force :
      ~ isSet (manualDuration scene) -> estimatedDuration scene == 0 ->
      InForce scene 5.

(** The durations, start offsets and total the exporter computes for a
    scene list, when its preload succeeds. *)
Definition exporterLayout (env : Env) (scenes : list Scene)
  : option (list number * list number * number) :=
  match Exporter.preload env scenes with
  | Fulfilled loadedScenes =>
      Some (map Exporter.finalDuration loadedScenes,
            map Exporter.startTime (Exporter.timelineScenes loadedScenes),
            Exporter.totalDuration loadedScenes)
  | _ => None
  end.

(** A scene with a manual duration of two seconds, an estimate of five and
    no audio. *)
Definition shortManual : Scene :=
  sampleScene 0 "m2" 5 (Some 2) (Some "img") None None.

(** A scene narrated for four seconds and estimated at five, with no
    manual duration, and its decoded buffer. *)
Definition narrated4 : Scene :=
  sampleScene 0 "s0" 5 None (Some "img0") (Some "aud0") (Some 4).

Definition buffer4 : AudioBuffer := {| duration := 4 |}.

(** A decoded buffer of length zero. *)
Definition emptyBuffer : AudioBuffer := {| duration := 0 |}.

(** The scenes of Scenario A after a preload in [envA]. *)
Definition loadedA : list Exporter.LoadedScene :=
  match Exporter.preload envA scenarioA with
  | Fulfilled loadedScenes => loadedScenes
  | _ => []
  end.

(** The interval test both lookups apply to an entry, over any entry type
    with a start and an end. *)
Definition within {A : Type} (st en : A -> number) (t : number) (e : A)
  : bool :=
  Qle_bool (st e) t && Qlt_bool t (en e).

(** Entries laid end to end from [from], each of positive length. *)
Fixpoint chained {A : Type} (st en : A -> number) (from : number)
    (l : list A) : Prop :=
  match l with
  | [] => True
  | e :: rest => st e == from /\ st e < en e /\ chained st en (en e) rest
  end.

(** Where a chain that begins at [from] ends. *)
Fixpoint endOf {A : Type} (en : A -> number) (from : number) (l : list A)
  : number :=
  match l with
  | [] => from
  | e :: rest => endOf en (en e) rest
  end.

(** The player's initial state. *)
Definition initialState : Player.State :=
  {| Player.isPlaying := false; Player.currentSceneIndex := 0;
     Player.sceneProgress := 0 |}.

(** What a negotiation over a preference list yields: the first entry the
    runtime supports, or the empty type when it supports none. *)
Inductive Negotiated (supported : string -> bool) (preferences : list string)
  : string -> Prop :=
  | first_supported (earlier later : list string) (chosen : string) :
      preferences = (earlier ++ chosen :: later)%list ->
      supported chosen = true ->
      Forall (fun u => supported u = false) earlier ->
      Negotiated supported preferences chosen
  | none_supported :
      Forall (fun u => supported u = false) preferences ->
      Negotiated supported preferences EmptyString.

(** Audio contexts a run has opened and not closed, and whether it stopped
    a given track. *)
Definition opensContext (c : Call) : bool :=
  match c with NewAudioContext => true | _ => false end.

Definition closesContext (c : Call) : bool :=
  match c with AudioContextClose => true | _ => false end.

Definition contextsLeftOpen (calls : list Call) : nat :=
  List.length (filter opensContext calls)
  - List.length (filter closesContext calls).

Definition stopsTrack (t : Track) (c : Call) : bool :=
  match c, t with
  | TrackStop CanvasVideoTrack, CanvasVideoTrack => true
  | TrackStop DestinationAudioTrack, DestinationAudioTrack => true
  | _, _ => false
  end.

(** Whether a scheduled entry has a decoded buffer. *)
Definition hasAudio (e : Exporter.TimelineScene) : bool :=
  match Exporter.audioBuffer (Exporter.loaded e) with
  | Some _ => true
  | None => false
  end.


(** A browser in which the image of the first scene fails to load. *)
Definition envBrokenImage : Env :=
  {| canvasContext := true;
     loadImage := fun url =>
       if String.eqb url "img0" then None
       else Some {| width := 1024; height := 768 |};
     decodeAudio := decodeAudio envA;
     isTypeSupported := isTypeSupported envA;
     clockAtResume := 0;
     clockReadings := clockReadings envA;
     dataavailable := dataavailable envA |}.

(** A browser whose recorder hands over nothing but an empty chunk. *)
Definition envEmptyCapture : Env :=
  {| canvasContext := true;
     loadImage := loadImage envA;
     decodeAudio := decodeAudio envA;
     isTypeSupported := isTypeSupported envA;
     clockAtResume := 0;
     clockReadings := clockReadings envA;
     dataavailable := [ {| size := 0; type := "video/webm" |} ] |}.

(** ** The player's transport controls *)

Module Controls.

Import Player.



(** [handleSceneEnd]: the next scene, or stop and rewind after the last. *)
Definition handleSceneEnd (timeline : list TimelineEntry) (st : State)
  : State :=
  if (currentSceneIndex st <? Z.of_nat (List.length timeline) - 1)%Z then
    {| isPlaying := isPlaying st;
       currentSceneIndex := (currentSceneIndex st + 1)%Z;
       sceneProgress := sceneProgress st |}
  else
    {| isPlaying := false; currentSceneIndex := 0; sceneProgress := 0 |}.

Definition togglePlay (st : State) : State :=
  {| isPlaying := negb (isPlaying st);
     currentSceneIndex := currentSceneIndex st;
     sceneProgress := sceneProgress st |}.

Inductive Direction := prev | next.

(** [skip]: one scene back or forth, clamped to the timeline. *)
Definition skip (timeline : list TimelineEntry) (direction : Direction)
                (st : State) : State :=
  let newIndex :=
    match direction with
    | next => (currentSceneIndex st + 1)%Z
    | prev => (currentSceneIndex st - 1)%Z
    end in
  let newIndex :=
    Z.max 0 (Z.min newIndex (Z.of_nat (List.length timeline) - 1)) in
  {| isPlaying := isPlaying st;
     currentSceneIndex := newIndex;
     sceneProgress := sceneProgress st |}.






(** The duration editor's [onChange]: [val] is [parseFloat] of the field,
    [None] for [NaN]; the scene sent to [onUpdateScene], if any. *)
Definition onDurationChange (data : TimelineEntry) (val : option number)
  : option Scene :=
  match val with
  | Some v =>
      if Qlt_bool 0 v then Some (withManualDuration (scene data) v) else None
  | None => None
  end.

End Controls.

(** ** App.tsx: updating a scene and starting an export *)

Module App.

(** [prev.map(s => s.id === updatedScene.id ? updatedScene : s)] *)
Definition handleUpdateScene (updatedScene : Scene) (prev : list Scene)
  : list Scene :=
  map (fun s => if String.eqb (id s) (id updatedScene) then updatedScene else s)
      prev.

Definition isSome {A : Type} (x : option A) : bool :=
  match x with Some _ => true | None => false end.

(** [scenes.filter(s => s.status === 'ready' && s.imageUrl && s.audioUrl)] *)
Definition isReady (s : Scene) : bool :=
  match status s with ready => true | _ => false end
  && isSome (truthyStr (imageUrl s))
  && isSome (truthyStr (audioUrl s)).

Definition readyScenes (scenes : list Scene) : list Scene :=
  filter isReady scenes.

(** [String.prototype.includes] *)
Fixpoint includes (s sub : string) : bool :=
  String.prefix sub s
  || match s with
     | EmptyString => false
     | String _ rest => includes rest sub
     end.

(** The file extension chosen for the download. *)
Definition extension (format : ExportFormat) (blob : Blob) : string :=
  let ext := "mp4" in
  match format with
  | AudioOnly =>
      if includes (type blob) "mp4" || includes (type blob) "aac"
      then "m4a" else "wav"
  | _ => if includes (type blob) "webm" then "webm" else ext
  end.

(** What [handleExportVideo] ends in: an alert, or a download. *)
Inductive Handled :=
  | Alert (message : string)
  | Download (extension : string) (blob : Blob)
  | Exporting.

Definition handleExportVideo (env : Env) (imageAspect : ImageAspect)
    (scenes : list Scene) (format : ExportFormat) : Handled :=
  let readyScenes := readyScenes scenes in
  if (List.length readyScenes =? 0)%nat then Alert "No ready scenes to export."
  else
    match Run.outcome
            (Exporter.exportVideo env readyScenes
               {| Exporter.aspectRatio := imageAspect;
                  Exporter.format := format |}) with
    | Fulfilled blob => Download (extension format blob) blob
    | Rejected _ => Alert "Export failed. See console for details."
    | Pending => Exporting
    end.

End App.

(** ** services/audioUtils.ts: wrapping PCM in a WAV file

    Bytes are integers from 0 to 255; a [DataView] or [Uint8Array] of fixed
    length is the list of its bytes, and a write that does not fit is the
    [RangeError] of the source ([None]). *)

Module AudioUtils.

(** Overwrite the bytes from [offset] on with [bs]. *)
Definition setBytes (view : list Z) (offset : nat) (bs : list Z)
  : option (list Z) :=
  if (offset + List.length bs <=? List.length view)%nat
  then Some (firstn offset view ++ bs
             ++ skipn (offset + List.length bs) view)%list
  else None.

(** The little-endian bytes of a value taken modulo 2^16 and 2^32. *)
Definition le16 (value : Z) : list Z :=
  [ value mod 256; (value / 256) mod 256 ]%Z.

Definition le32 (value : Z) : list Z :=
  [ value mod 256; (value / 256) mod 256;
    (value / 65536) mod 256; (value / 16777216) mod 256 ]%Z.

Definition setUint8 (view : list Z) (offset : nat) (value : Z) :=
  setBytes view offset [ (value mod 256)%Z ].

(** [view.setUint16(offset, value, true)] and [view.setUint32(..., true)] *)
Definition setUint16 (view : list Z) (offset : nat) (value : Z) :=
  setBytes view offset (le16 value).

Definition setUint32 (view : list Z) (offset : nat) (value : Z) :=
  setBytes view offset (le32 value).

(** [view.getUint16(offset, true)] and [view.getUint32(offset, true)] *)
Definition getUint16 (view : list Z) (offset : nat) : option Z :=
  match skipn offset view with
  | b0 :: b1 :: _ => Some (b0 + 256 * b1)%Z
  | _ => None
  end.

Definition getUint32 (view : list Z) (offset : nat) : option Z :=
  match skipn offset view with
  | b0 :: b1 :: b2 :: b3 :: _ =>
      Some (b0 + 256 * b1 + 65536 * b2 + 16777216 * b3)%Z
  | _ => None
  end.

Definition charCode (c : Ascii.ascii) : Z := Z.of_nat (Ascii.nat_of_ascii c).

(** [writeString]: one [setUint8] per character. *)
Fixpoint writeString (view : list Z) (offset : nat) (s : string)
  : option (list Z) :=
  match s with
  | EmptyString => Some view
  | String c rest =>
      match setUint8 view offset (charCode c) with
      | Some view' => writeString view' (S offset) rest
      | None => None
      end
  end.

Definition andThen {A B : Type} (x : option A) (f : A -> option B)
  : option B :=
  match x with
  | Some a => f a
  | None => None
  end.

(** The 44 header bytes [createWavUrlFromPcmBytes] writes for [length]
    bytes of PCM. *)
Definition wavHeader (length : Z) (sampleRate : Z) : option (list Z) :=
  let view := repeat 0%Z 44 in
  andThen (writeString view 0 "RIFF") (fun view =>
  andThen (setUint32 view 4 (36 + length)) (fun view =>
  andThen (writeString view 8 "WAVE") (fun view =>
  andThen (writeString view 12 "fmt ") (fun view =>
  andThen (setUint32 view 16 16) (fun view =>
  andThen (setUint16 view 20 1) (fun view =>
  andThen (setUint16 view 22 1) (fun view =>
  andThen (setUint32 view 24 sampleRate) (fun view =>
  andThen (setUint32 view 28 (sampleRate * 2)) (fun view =>
  andThen (setUint16 view 32 2) (fun view =>
  andThen (setUint16 view 34 16) (fun view =>
  andThen (writeString view 36 "data") (fun view =>
  setUint32 view 40 length)))))))))))).

(** [createWavUrlFromPcmBytes]: the bytes of the blob
    [new Blob([view, bytes], { type: 'audio/wav' })] behind the returned
    object URL. *)
Definition createWavUrlFromPcmBytes (bytes : list Z) (sampleRate : Z)
  : option (list Z) :=
  andThen (wavHeader (Z.of_nat (List.length bytes)) sampleRate)
          (fun view => Some (view ++ bytes)%list).

(** The end of [generateSpeech], once the chunks have arrived: refuse an
    empty list, copy the chunks end to end into one array, wrap it at the
    default rate of 24000. *)
Fixpoint copyChunks (combinedPcm : list Z) (offset : nat)
    (pcmChunks : list (list Z)) : option (list Z) :=
  match pcmChunks with
  | [] => Some combinedPcm
  | chunk :: rest =>
      andThen (setBytes combinedPcm offset chunk)
              (fun combinedPcm =>
                 copyChunks combinedPcm (offset + List.length chunk) rest)
  end.

Definition assembleSpeech (pcmChunks : list (list Z)) : Settled (list Z) :=
  if (List.length pcmChunks =? 0)%nat
  then Rejected "Failed to generate audio chunks"
  else
    let totalLength :=
      fold_left (fun acc chunk => (acc + List.length chunk)%nat) pcmChunks 0%nat in
    let combinedPcm := repeat 0%Z totalLength in
    match andThen (copyChunks combinedPcm 0 pcmChunks)
                  (fun combinedPcm =>
                     createWavUrlFromPcmBytes combinedPcm 24000) with
    | Some wav => Fulfilled wav
    | None => Rejected "RangeError"
    end.

End AudioUtils.

(** ** services/geminiService.ts: retrying a rate-limited call *)

Module Gemini.

(** What [retryWithBackoff] looks at in a thrown error; [json] is
    [JSON.stringify(error)]. *)
Record ApiError := mkError {
  errStatus : option Z;
  errCode : option Z;
  errErrorCode : option Z;
  errResponseStatus : option Z;
  json : string;
  message : option string;
  statusText : option string
}.

Definition is429 (x : option Z) : bool :=
  match x with
  | Some v => (v =? 429)%Z
  | None => false
  end.

Definition optIncludes (x : option string) (sub : string) : bool :=
  match x with
  | Some s => App.includes s sub
  | None => false
  end.

Definition isRateLimit (err : ApiError) : bool :=
  is429 (errStatus err)
  || is429 (errCode err)
  || is429 (errErrorCode err)
  || is429 (errResponseStatus err)
  || App.includes (json err) "429"
  || App.includes (json err) "RESOURCE_EXHAUSTED"
  || optIncludes (message err) "429"
  || optIncludes (message err) "RESOURCE_EXHAUSTED"
  || optIncludes (statusText err) "Too Many Requests".

(** One call of [fn]. *)
Inductive Attempt (A : Type) :=
  | Returns (value : A)
  | Throws (err : ApiError).
Arguments Returns {A} value.
Arguments Throws {A} err.

(** How the retried call ends; [Hangs] when [fn] never settles. *)
Inductive Retried (A : Type) :=
  | Returned (value : A)
  | Thrown (err : ApiError)
  | Hangs.
Arguments Returned {A} value.
Arguments Thrown {A} err.
Arguments Hangs {A}.

(** [retryWithBackoff(fn, retries, delay)], with the successive calls of
    [fn] given by [attempts]: the delays waited, in order, and the end. *)
Fixpoint retryWithBackoff {A : Type} (attempts : list (Attempt A))
    (retries : nat) (delay : Z) : list Z * Retried A :=
  match attempts with
  | [] => ([], Hangs)
  | Returns value :: _ => ([], Returned value)
  | Throws err :: rest =>
      match retries with
      | S fewer =>
          if isRateLimit err then
            let (waits, ended) := retryWithBackoff rest fewer (delay * 2) in
            (delay :: waits, ended)
          else ([], Thrown err)
      | O => ([], Thrown err)
      end
  end.

End Gemini.

(** The delays waited before the calls after the first: [delay], twice
    that, and so on. *)
Definition backoff (delay : Z) (n : nat) : list Z :=
  map (fun k => (delay * 2 ^ Z.of_nat k)%Z) (seq 0 n).

(** * Properties *)

(** ** Arithmetic of the JavaScript operators *)

Lemma Qlt_bool_iff (x y : number) : Qlt_bool x y = true <-> x < y.
Proof.
  unfold Qlt_bool. rewrite negb_true_iff.
  split; intro H.
  - apply Qnot_le_lt. intro Hle. apply Qle_bool_iff in Hle. congruence.
  - destruct (Qle_bool y x) eqn:E; [|reflexivity].
    apply Qle_bool_iff in E. lra.
Qed.

Lemma Qle_bool_false (x y : number) : Qle_bool x y = false <-> y < x.
Proof.
  split; intro H.
  - apply Qnot_le_lt. intro Hle. apply Qle_bool_iff in Hle. congruence.
  - destruct (Qle_bool x y) eqn:E; [|reflexivity].
    apply Qle_bool_iff in E. lra.
Qed.

Lemma Math_max_l (x y : number) : x <= Math_max x y.
Proof. apply Q.le_max_l. Qed.

Lemma Math_max_r (x y : number) : y <= Math_max x y.
Proof. apply Q.le_max_r. Qed.

Lemma Math_max_cases (x y : number) :
  (y <= x /\ Math_max x y == x) \/ (x <= y /\ Math_max x y == y).
Proof.
  unfold Math_max.
  destruct (Qlt_le_dec x y) as [H|H].
  - right. split; [lra|]. apply Q.max_r. lra.
  - left. split; [lra|]. apply Q.max_l. lra.
Qed.

(** [x || d] is [x] when [x] is set and [d] otherwise. *)
Lemma jsOr_set (x : option number) (d v : number) :
  x = Some v -> ~ v == 0 -> jsOr x d = v.
Proof.
  intros -> Hv. unfold jsOr.
  destruct (Qeq_bool v 0) eqn:E; [|reflexivity].
  apply Qeq_bool_eq in E. contradiction.
Qed.

Lemma jsOr_unset (x : option number) (d : number) :
  ~ isSet x -> jsOr x d = d.
Proof.
  intros Hx. unfold jsOr. destruct x as [v|]; [|reflexivity].
  destruct (Qeq_bool v 0) eqn:E; [reflexivity|].
  exfalso. apply Hx. exists v. split; [reflexivity|].
  now apply Qeq_bool_neq.
Qed.

Lemma isSet_dec (x : option number) : isSet x \/ ~ isSet x.
Proof.
  destruct x as [v|].
  - destruct (Qeq_dec v 0) as [H|H].
    + right. intros [w [Hw Hn]]. inversion Hw; subst. contradiction.
    + left. exists v. split; [reflexivity|assumption].
  - right. intros [w [Hw _]]. discriminate.
Qed.

(** The audio operand [audioBuffer?.duration || 0] is the audio length. *)
Lemma jsOr_audio (audioBuffer : option AudioBuffer) :
  jsOr (option_map duration audioBuffer) 0 == audioSeconds audioBuffer.
Proof.
  unfold audioSeconds, jsOr, nullish.
  destruct audioBuffer as [b|]; simpl; [|reflexivity].
  destruct (Qeq_bool (duration b) 0) eqn:E; [|reflexivity].
  apply Qeq_bool_eq in E. now rewrite E.
Qed.

(** The second operand [manualDuration || estimatedDuration || 5] is the
    candidate in force. *)
Lemma candidate_in_force (scene : Scene) :
  InForce scene
    (jsOr (Some (jsOr (manualDuration scene) (estimatedDuration scene))) 5).
Proof.
  destruct (isSet_dec (manualDuration scene)) as [[m [Hm Hn]]|Hunset].
  - rewrite (jsOr_set _ _ m Hm Hn).
    rewrite (jsOr_set (Some m) 5 m eq_refl Hn).
    now apply manual_in_force.
  - rewrite (jsOr_unset _ _ Hunset).
    destruct (Qeq_dec (estimatedDuration scene) 0) as [Hz|Hnz].
    + rewrite jsOr_unset.
      * now apply default_in_force.
      * intros [w [Hw Hn]]. inversion Hw; subst. contradiction.
    + rewrite (jsOr_set _ 5 _ eq_refl Hnz).
      now apply estimate_in_force.
Qed.

(** ** Duration resolution *)

(** C1, as amended.  For every scene and decoded buffer the exporter's final
    duration is the larger of the audio length (0 without a buffer) and the
    candidate in force: the manual duration when set, else the estimate,
    else 5 s.  It is therefore never below the audio length nor below
    that candidate, and the audio-only export computes the same value. *)
Theorem finalDuration_rule (audioBuffer : option AudioBuffer) (scene : Scene) :
  exists c,
    InForce scene c /\
    Exporter.finalDurationOf audioBuffer scene
      == Qmax (audioSeconds audioBuffer) c /\
    audioSeconds audioBuffer <= Exporter.finalDurationOf audioBuffer scene /\
    c <= Exporter.finalDurationOf audioBuffer scene /\
    Exporter.sceneDuration audioBuffer scene
      = Exporter.finalDurationOf audioBuffer scene.
Proof.
  exists (jsOr (Some (jsOr (manualDuration scene) (estimatedDuration scene))) 5).
  unfold Exporter.finalDurationOf, Exporter.sceneDuration.
  repeat split.
  - apply candidate_in_force.
  - unfold Math_max. now rewrite jsOr_audio.
  - rewrite <- jsOr_audio. apply Math_max_l.
  - apply Math_max_r.
Qed.

(** C1, the counterexample: with a manual duration of 2 s, an estimate of
    5 s and no audio the exporter resolves 2 s, below the estimate, and no
    floor makes the worded maximum agree with it. *)
Lemma finalDuration_below_estimate :
  Exporter.finalDurationOf None shortManual == 2 /\
  ~ (estimatedDuration shortManual
       <= Exporter.finalDurationOf None shortManual) /\
  ~ (exists floor,
       Exporter.finalDurationOf None shortManual
         == specFinalDuration floor None shortManual).
Proof.
  assert (E : Exporter.finalDurationOf None shortManual = 2) by reflexivity.
  rewrite E. split; [reflexivity|]. split.
  - simpl. lra.
  - intros [fl H]. unfold specFinalDuration in H. simpl in H.
    pose proof (Q.le_max_r (Qmax 2 0) (Qmax 5 fl)) as H1.
    pose proof (Q.le_max_l 5 fl) as H2.
    lra.
Qed.

(** C9, as amended.  Setting [manualDuration] to a value other than zero
    that is at least the audio length makes the final duration that value,
    and whatever value is set the final duration stays at or above the
    audio length.  (Zero counts as no manual duration.) *)
Theorem manual_override (audioBuffer : option AudioBuffer) (scene : Scene) :
  (forall v : number, ~ v == 0 -> audioSeconds audioBuffer <= v ->
     Exporter.finalDurationOf audioBuffer (withManualDuration scene v) == v) /\
  (forall v : number,
     audioSeconds audioBuffer
       <= Exporter.finalDurationOf audioBuffer (withManualDuration scene v)).
Proof.
  split; intros v.
  - intros Hv Hge. unfold Exporter.finalDurationOf, withManualDuration.
    cbn [manualDuration estimatedDuration].
    rewrite (jsOr_set (Some v) (estimatedDuration scene) v eq_refl Hv).
    rewrite (jsOr_set (Some v) 5 v eq_refl Hv).
    unfold Math_max. rewrite jsOr_audio. apply Q.max_r. exact Hge.
  - unfold Exporter.finalDurationOf. rewrite <- jsOr_audio. apply Math_max_l.
Qed.

Lemma manual_override_witness :
  Exporter.finalDurationOf (Some buffer4) (withManualDuration narrated4 7) == 7.
Proof.
  apply (proj1 (manual_override (Some buffer4) narrated4) 7).
  - intro H. discriminate H.
  - unfold audioSeconds, buffer4. simpl. lra.
Defined.

(** C9, the counterexample: a manual duration of 0 is at least the audio
    length of a scene without audio (and of one whose buffer is empty), yet
    the final duration is the estimate of 5 s, not 0. *)
Lemma manual_zero_is_ignored :
  (audioSeconds None <= 0 /\
   ~ Exporter.finalDurationOf None (withManualDuration narrated4 0) == 0) /\
  (audioSeconds (Some emptyBuffer) <= 0 /\
   ~ Exporter.finalDurationOf (Some emptyBuffer)
       (withManualDuration narrated4 0) == 0).
Proof.
  assert (E1 : Exporter.finalDurationOf None (withManualDuration narrated4 0) = 5)
    by reflexivity.
  assert (E2 : Exporter.finalDurationOf (Some emptyBuffer)
                 (withManualDuration narrated4 0) = 5) by reflexivity.
  rewrite E1, E2. unfold audioSeconds. simpl.
  repeat split; try lra; intro H; discriminate H.
Qed.

(** ** The exporter's timeline *)

Section TimelineLayout.

Import Exporter.

Lemma timelineFrom_length (acc : number) (l : list LoadedScene) :
  List.length (fst (timelineFrom acc l)) = List.length l.
Proof.
  revert acc. induction l as [|s rest IH]; intros acc; simpl.
  - reflexivity.
  - specialize (IH (acc + finalDuration s)).
    destruct (timelineFrom (acc + finalDuration s) rest) as [entries total].
    simpl in *. now rewrite IH.
Qed.

Lemma timelineFrom_total (acc : number) (l : list LoadedScene) :
  snd (timelineFrom acc l) = fold_left Qplus (map finalDuration l) acc.
Proof.
  revert acc. induction l as [|s rest IH]; intros acc; simpl.
  - reflexivity.
  - specialize (IH (acc + finalDuration s)).
    destruct (timelineFrom (acc + finalDuration s) rest) as [entries total].
    simpl in *. exact IH.
Qed.

Lemma timelineFrom_nth (l : list LoadedScene) :
  forall (acc : number) (i : nat) (e : TimelineScene),
    nth_error (fst (timelineFrom acc l)) i = Some e ->
    nth_error l i = Some (loaded e) /\
    startTime e = fold_left Qplus (map finalDuration (firstn i l)) acc /\
    endTime e = startTime e + finalDuration (loaded e).
Proof.
  induction l as [|s rest IH]; intros acc i e H.
  - destruct i; discriminate H.
  - simpl in H. specialize (IH (acc + finalDuration s)).
    destruct (timelineFrom (acc + finalDuration s) rest) as [entries total].
    destruct i as [|i]; simpl in H.
    + inversion H; subst e. simpl. repeat split; reflexivity.
    + simpl. apply IH. exact H.
Qed.

(** C10.  The timeline the exporter builds has one entry per loaded scene,
    in order; each entry starts at the sum of the final durations of the
    scenes before it and ends one final duration later; the total is the
    sum of all final durations; the empty list gives no entry and total 0. *)
Theorem timeline_layout (loadedScenes : list LoadedScene) :
  List.length (timelineScenes loadedScenes) = List.length loadedScenes /\
  (forall i e,
     nth_error (timelineScenes loadedScenes) i = Some e ->
     nth_error loadedScenes i = Some (loaded e) /\
     startTime e
       = sumDurations (map finalDuration (firstn i loadedScenes)) /\
     endTime e = startTime e + finalDuration (loaded e)) /\
  totalDuration loadedScenes = sumDurations (map finalDuration loadedScenes) /\
  timelineScenes [] = [] /\
  totalDuration [] = 0.
Proof.
  unfold timelineScenes, totalDuration, sumDurations.
  split; [apply timelineFrom_length|].
  split; [intros i e H; now apply timelineFrom_nth|].
  split; [apply timelineFrom_total|].
  split; reflexivity.
Qed.

End TimelineLayout.

Lemma timeline_layout_witness :
  exists e,
    nth_error (Exporter.timelineScenes loadedA) 2 = Some e /\
    Exporter.startTime e = 8 /\
    Exporter.endTime e
      = Exporter.startTime e + Exporter.finalDuration (Exporter.loaded e).
Proof.
  eexists. split; [reflexivity|].
  destruct (proj1 (proj2 (timeline_layout loadedA)) 2%nat _ eq_refl)
    as [_ [Hs He]].
  split; [exact Hs|exact He].
Defined.

(** C2, as amended.  For Scenario A the exporter resolves the durations
    5, 3 and 6.5 s (the first scene's estimate of 5 s exceeds its 4 s of
    audio), lays the scenes out from 0, 5 and 8 s, and totals 14.5 s. *)
Theorem scenarioA_exporter :
  exporterLayout envA scenarioA = Some ([5; 3; 13 # 2], [0; 5; 8], 29 # 2).
Proof. reflexivity. Qed.

(** C2, the counterexample: the exporter's figures for Scenario A are not
    the durations 4, 3, 6.5 s, the offsets 0, 4, 7 s and the total 13.5 s. *)
Lemma scenarioA_not_as_worded :
  ~ (exists ds ss total,
       exporterLayout envA scenarioA = Some (ds, ss, total) /\
       Forall2 Qeq ds [4; 3; 13 # 2] /\
       Forall2 Qeq ss [0; 4; 7] /\
       total == 27 # 2).
Proof.
  intros [ds [ss [total [H [_ [_ Ht]]]]]].
  assert (E : exporterLayout envA scenarioA
              = Some ([5; 3; 13 # 2], [0; 5; 8], 29 # 2)) by reflexivity.
  rewrite E in H. inversion H; subst.
  discriminate Ht.
Qed.

(** The worded figures of Scenario A are those of the player's timeline. *)
Lemma scenarioA_player :
  map Player.duration (Player.timeline scenarioA) = [4; 3; 13 # 2] /\
  map Player.start (Player.timeline scenarioA) = [0; 4; 7] /\
  Player.totalDuration (Player.timeline scenarioA) = 27 # 2.
Proof. repeat split; reflexivity. Qed.

(** ** Preview against export *)

Lemma jsOrOpt_set (x y : option number) (v : number) :
  x = Some v -> ~ v == 0 -> jsOrOpt x y = Some v.
Proof.
  intros -> Hv. unfold jsOrOpt.
  destruct (Qeq_bool v 0) eqn:E; [|reflexivity].
  apply Qeq_bool_eq in E. contradiction.
Qed.

Lemma jsOrOpt_unset (x y : option number) : ~ isSet x -> jsOrOpt x y = y.
Proof.
  intros Hx. unfold jsOrOpt. destruct x as [v|]; [|reflexivity].
  destruct (Qeq_bool v 0) eqn:E; [reflexivity|].
  exfalso. apply Hx. exists v. split; [reflexivity|].
  now apply Qeq_bool_neq.
Qed.

Lemma nullish_unset (x : option number) : ~ isSet x -> nullish x == 0.
Proof.
  intros Hx. destruct x as [v|]; simpl; [|reflexivity].
  destruct (Qeq_dec v 0) as [H|H]; [exact H|].
  exfalso. apply Hx. exists v. now split.
Qed.

(** Replace every [Math_max] of the goal by a fresh number known through
    its two defining cases. *)
Ltac split_max :=
  repeat match goal with
  | |- context [Math_max ?x ?y] =>
      let M := fresh "M" in
      let H := fresh "HM" in
      pose proof (Math_max_cases x y) as H;
      revert H; generalize (Math_max x y); intros M H
  end.

(** C3, as amended.  When the decoded buffer has the length recorded in the
    scene, the player's duration of a scene is never longer than the
    exporter's, and the two agree exactly when a manual duration is set, or
    the scene has no audio length, or the audio is at least as long as the
    estimate (5 s for a zero estimate). *)
Theorem preview_vs_export (audioBuffer : option AudioBuffer) (scene : Scene) :
  option_map duration audioBuffer = audioDuration scene ->
  Player.durationOf scene <= Exporter.finalDurationOf audioBuffer scene /\
  (Player.durationOf scene == Exporter.finalDurationOf audioBuffer scene <->
   isSet (manualDuration scene) \/
   ~ isSet (audioDuration scene) \/
   jsOr (Some (estimatedDuration scene)) 5 <= audioSeconds audioBuffer).
Proof.
  intros Hlen.
  unfold Player.durationOf, Exporter.finalDurationOf, audioSeconds.
  rewrite Hlen.
  destruct (isSet_dec (manualDuration scene)) as [[m [Hm Hn]]|Hm].
  - rewrite (jsOrOpt_set _ (audioDuration scene) m Hm Hn).
    rewrite (jsOr_set _ (estimatedDuration scene) m Hm Hn).
    rewrite (jsOr_set (Some m) (estimatedDuration scene) m eq_refl Hn).
    rewrite (jsOr_set (Some m) 5 m eq_refl Hn).
    assert (Hset : isSet (manualDuration scene)) by (exists m; now split).
    split_max. split; [|split; [tauto|intros _]];
      destruct HM as [[? ?]|[? ?]], HM0 as [[? ?]|[? ?]]; lra.
  - rewrite (jsOrOpt_unset _ (audioDuration scene) Hm).
    rewrite (jsOr_unset _ (estimatedDuration scene) Hm).
    destruct (isSet_dec (audioDuration scene)) as [[a [Ha Hna]]|Ha].
    + rewrite (jsOr_set _ (estimatedDuration scene) a Ha Hna).
      rewrite (jsOr_set (Some a) 5 a eq_refl Hna).
      rewrite (jsOr_set _ 0 a Ha Hna).
      assert (Hset : isSet (audioDuration scene)) by (exists a; now split).
      replace (nullish (audioDuration scene)) with a
        by (rewrite Ha; reflexivity).
      generalize (jsOr (Some (estimatedDuration scene)) 5). intros c.
      split_max.
      split; [|split; [intros ?; right; right
                      |intros [?|[?|?]]; [contradiction|contradiction|]]];
        destruct HM as [[? ?]|[? ?]], HM0 as [[? ?]|[? ?]]; lra.
    + rewrite (jsOr_unset _ (estimatedDuration scene) Ha).
      rewrite (jsOr_unset _ 0 Ha).
      generalize (jsOr (Some (estimatedDuration scene)) 5). intros c.
      split_max. split; [|split; [tauto|intros _]];
        destruct HM as [[? ?]|[? ?]], HM0 as [[? ?]|[? ?]]; lra.
Qed.

Lemma preview_vs_export_witness :
  Player.durationOf narrated4
    <= Exporter.finalDurationOf (Some buffer4) narrated4.
Proof.
  apply (proj1 (preview_vs_export (Some buffer4) narrated4 eq_refl)).
Defined.

(** C3, the counterexample: for a scene with 4 s of audio, an estimate of
    5 s and no manual duration the player shows 4 s and the exporter
    renders 5 s. *)
Lemma preview_differs_from_export :
  option_map duration (Some buffer4) = audioDuration narrated4 /\
  Player.durationOf narrated4 == 4 /\
  Exporter.finalDurationOf (Some buffer4) narrated4 == 5 /\
  ~ Player.durationOf narrated4
      == Exporter.finalDurationOf (Some buffer4) narrated4.
Proof.
  repeat split; try reflexivity.
  intro H. discriminate H.
Qed.

(** ** Looking up the active entry *)

Section Intervals.

Context {A : Type} (st en : A -> number).


Lemma within_false (t : number) (e : A) :
  within st en t e = false <-> t < st e \/ en e <= t.
Proof.
  unfold within. rewrite andb_false_iff, Qle_bool_false.
  unfold Qlt_bool. rewrite negb_false_iff, Qle_bool_iff. reflexivity.
Qed.


(** Nothing is found before the origin. *)
Lemma find_before (l : list A) :
  forall from k t,
    chained st en from l -> t < from ->
    find (within st en t) l = None /\
    findIndexFrom (within st en t) k l = (-1)%Z.
Proof.
  induction l as [|h rest IH]; intros from k t Hc Ht; simpl.
  - now split.
  - destruct Hc as [Hs [Hpos Hrest]].
    assert (E : within st en t h = false) by (apply within_false; lra).
    rewrite E. apply (IH (en h)); [exact Hrest | lra].
Qed.



Lemma chained_endOf (l : list A) :
  forall from, chained st en from l -> from <= endOf en from l.
Proof.
  induction l as [|h rest IH]; intros from Hc; simpl.
  - lra.
  - destruct Hc as [Hs [Hpos Hrest]]. specialize (IH _ Hrest). lra.
Qed.



End Intervals.

Section ActiveScene.

Import Exporter.



Lemma exporter_chained (l : list LoadedScene) :
  forall acc,
    Forall (fun s => 0 < finalDuration s) l ->
    chained startTime endTime acc (fst (timelineFrom acc l)).
Proof.
  induction l as [|s rest IH]; intros acc Hpos; simpl.
  - exact I.
  - inversion Hpos as [|? ? Hs Hrest]; subst.
    specialize (IH (acc + finalDuration s) Hrest).
    destruct (timelineFrom (acc + finalDuration s) rest) as [entries total].
    simpl in *. split; [reflexivity | split; [lra | exact IH]].
Qed.

Lemma exporter_endOf (l : list LoadedScene) :
  forall acc,
    snd (timelineFrom acc l) = endOf endTime acc (fst (timelineFrom acc l)).
Proof.
  induction l as [|s rest IH]; intros acc; simpl.
  - reflexivity.
  - specialize (IH (acc + finalDuration s)).
    destruct (timelineFrom (acc + finalDuration s) rest) as [entries total].
    simpl in *. exact IH.
Qed.


Lemma endOf_last (l : list Player.TimelineEntry) :
  forall e x,
    nth_error (e :: l) (List.length l) = Some x ->
    Player.end_ x = endOf Player.end_ (Player.end_ e) l.
Proof.
  induction l as [|h rest IH]; intros e x H; simpl in *.
  - now inversion H.
  - now apply IH.
Qed.

Lemma player_total (tl : list Player.TimelineEntry) :
  Player.totalDuration tl = endOf Player.end_ 0 tl.
Proof.
  unfold Player.totalDuration. destruct tl as [|e rest]; [reflexivity|].
  cbn [List.length Nat.ltb Nat.leb endOf].
  replace (S (List.length rest) - 1)%nat with (List.length rest) by lia.
  destruct (nth_error (e :: rest) (List.length rest)) as [x|] eqn:E.
  - now apply endOf_last.
  - apply nth_error_None in E. simpl in E. lia.
Qed.

(** The loop's fallback branch: a pass that finds no entry before the
    total paints the black frame. *)
Lemma fallback_branch (entries : list TimelineScene)
    (total audioStartTime currentAudioTime : number) :
  Math_max 0 (currentAudioTime - audioStartTime) < total ->
  currentScene entries (Math_max 0 (currentAudioTime - audioStartTime)) = None ->
  renderPass entries total audioStartTime currentAudioTime = Painted FillBlack.
Proof.
  intros Hlt Hnone. unfold renderPass.
  apply Qle_bool_false in Hlt. rewrite Hlt, Hnone. reflexivity.
Qed.


End ActiveScene.



(** ** Runs of the exporter *)

Section Runs.

Import Exporter.

Lemma onstop_run (env : Env) :
  onstop env
  = ([TrackStop CanvasVideoTrack; TrackStop DestinationAudioTrack;
      TrackStop CanvasVideoTrack; AudioContextClose],
     if (size (videoBlob env) =? 0)%N
     then Rejected "Recording failed: Output file is empty."
     else Fulfilled (videoBlob env)).
Proof.
  unfold onstop. destruct (size (videoBlob env) =? 0)%N; reflexivity.
Qed.

Lemma audio_onstop_run (env : Env) :
  audio_onstop env
  = ([AudioContextClose],
     if (size (audioBlob env) =? 0)%N
     then Rejected "Audio export failed: Empty file"
     else Fulfilled (audioBlob env)).
Proof.
  unfold audio_onstop. destruct (size (audioBlob env) =? 0)%N; reflexivity.
Qed.

(** The render loop paints some frames and then either stops the recorder
    or, when the clock readings run out first, never returns. *)
Lemma renderLoop_run (entries : list TimelineScene) (total start : number)
    (readings : list number) :
  exists frames,
    renderLoop entries total start readings = (map Paint frames, Pending) \/
    renderLoop entries total start readings
      = ((map Paint frames ++ [RecorderStop])%list, Fulfilled tt).
Proof.
  induction readings as [|r later IH]; simpl.
  - exists []. now left.
  - destruct (renderPass entries total start r) as [|f].
    + exists []. now right.
    + destruct IH as [frames [H|H]]; exists (f :: frames);
        unfold Run.bind, Run.call; rewrite H; [now left | now right].
Qed.

Lemma audioLoop_run (total start : number) (readings : list number) :
  audioLoop total start readings = ([], Pending) \/
  audioLoop total start readings = ([RecorderStop], Fulfilled tt).
Proof.
  induction readings as [|r later IH]; simpl.
  - now left.
  - destruct (Qle_bool total (r - start)); [now right | exact IH].
Qed.

(** The loop stops the recorder as soon as a reading reaches the total. *)
Lemma renderLoop_stops (entries : list TimelineScene) (total start : number)
    (readings : list number) :
  Exists (fun r => total <= Math_max 0 (r - start)) readings ->
  snd (renderLoop entries total start readings) = Fulfilled tt.
Proof.
  induction 1 as [r later Hr | r later _ IH]; simpl.
  - unfold renderPass. apply Qle_bool_iff in Hr. now rewrite Hr.
  - destruct (renderPass entries total start r); [reflexivity|].
    unfold Run.bind, Run.call.
    destruct (renderLoop entries total start later) as [calls ended].
    simpl in *. now rewrite IH.
Qed.

Lemma scheduleAudio_sources (audioStartTime : number)
    (entries : list TimelineScene) :
  scheduleAudio audioStartTime entries
  = map (fun e => SourceStart (id (scene (loaded e)))
                              (audioStartTime + startTime e))
        (filter hasAudio entries).
Proof.
  induction entries as [|e rest IH]; simpl; [reflexivity|].
  unfold hasAudio at 1. destruct (audioBuffer (loaded e)); simpl;
    now rewrite IH.
Qed.

(** The calls and the outcome of the executor, by how the loop ends. *)
Lemma executor_run (env : Env) (entries : list TimelineScene) (total : number) :
  let audioStartTime := clockAtResume env + (1 # 10) in
  exists frames,
    let before :=
      (AudioContextResume
         :: scheduleAudio audioStartTime entries
         ++ RecorderStart :: map Paint frames)%list in
    (snd (renderLoop entries total audioStartTime (clockReadings env))
       = Pending /\
     executor env entries total = (before, Pending)) \/
    (snd (renderLoop entries total audioStartTime (clockReadings env))
       = Fulfilled tt /\
     executor env entries total
     = ((before ++ RecorderStop :: Run.calls (onstop env))%list,
        Run.outcome (onstop env))).
Proof.
  intros audioStartTime.
  destruct (renderLoop_run entries total audioStartTime (clockReadings env))
    as [frames [H|H]];
    exists frames; [left|right]; (split; [now rewrite H|]);
    unfold executor, Run.bind, Run.call; fold audioStartTime; rewrite H.
  - reflexivity.
  - rewrite onstop_run. simpl. f_equal. f_equal.
    rewrite <- !app_assoc. reflexivity.
Qed.

Lemma audioExecutor_run (env : Env) (loadedAudios : list (option AudioBuffer))
    (scenes : list Scene) :
  let startTime := clockAtResume env + (1 # 10) in
  let sources := fst (scheduleBuffers startTime 0 loadedAudios scenes) in
  let total := snd (scheduleBuffers startTime 0 loadedAudios scenes) in
  let before := (RecorderStart :: AudioContextResume :: sources)%list in
  (snd (audioLoop total startTime (clockReadings env)) = Pending /\
   audioExecutor env loadedAudios scenes = (before, Pending)) \/
  (snd (audioLoop total startTime (clockReadings env)) = Fulfilled tt /\
   audioExecutor env loadedAudios scenes
   = ((before ++ RecorderStop :: Run.calls (audio_onstop env))%list,
      Run.outcome (audio_onstop env))).
Proof.
  intros startTime sources total before.
  unfold audioExecutor. fold startTime.
  unfold before, sources, total.
  destruct (scheduleBuffers startTime 0 loadedAudios scenes)
    as [srcs tot]. cbn [fst snd].
  destruct (audioLoop_run tot startTime (clockReadings env)) as [H|H];
    [left|right]; (split; [now rewrite H|]);
    unfold Run.bind, Run.call; rewrite H.
  - simpl. now rewrite app_nil_r.
  - rewrite audio_onstop_run. simpl. reflexivity.
Qed.

Lemma audioLoop_stops (total start : number) (readings : list number) :
  Exists (fun r => total <= r - start) readings ->
  snd (audioLoop total start readings) = Fulfilled tt.
Proof.
  induction 1 as [r later Hr | r later _ IH]; simpl.
  - apply Qle_bool_iff in Hr. now rewrite Hr.
  - destruct (Qle_bool total (r - start)); [reflexivity | exact IH].
Qed.

(** The audio preload never rejects. *)
Lemma loadAudio_all (env : Env) (scenes : list Scene) :
  Promise_all (map (loadAudio env) scenes)
  = Fulfilled (map (loadSceneAudio env) scenes).
Proof.
  induction scenes as [|s rest IH]; simpl; [reflexivity|].
  now rewrite IH.
Qed.

Lemma exportAudioOnly_run (env : Env) (scenes : list Scene) :
  exportAudioOnly env scenes
  = (let (calls, ended) :=
       audioExecutor env (map (loadSceneAudio env) scenes) scenes in
     (NewAudioContext :: CreateMediaStreamDestination
        :: NewMediaRecorder (selectedMime env) None :: calls, ended)).
Proof.
  unfold exportAudioOnly, Run.bind, Run.call, Run.await.
  rewrite loadAudio_all.
  destruct (audioExecutor env (map (loadSceneAudio env) scenes) scenes).
  reflexivity.
Qed.

Lemma exportFrames_run (env : Env) (scenes : list Scene)
    (fmt : ExportFormat) (aspect : ImageAspect) :
  exportFrames env scenes fmt aspect
  = (let (w, h) := resolution fmt aspect in
     if canvasContext env then
       let acquired := [CreateCanvas w h; Paint FillBlack; NewAudioContext;
                        CreateMediaStreamDestination] in
       match preload env scenes with
       | Fulfilled loadedScenes =>
           let (calls, ended) :=
             executor env (timelineScenes loadedScenes)
                      (totalDuration loadedScenes) in
           ((acquired
               ++ CaptureStream 30
               :: NewMediaRecorder (selectedMimeType env) (Some (bitrate fmt))
               :: calls)%list, ended)
       | Rejected reason => (acquired, Rejected reason)
       | Pending => (acquired, Pending)
       end
     else ([CreateCanvas w h], Rejected "Could not create canvas context")).
Proof.
  unfold exportFrames, Run.bind, Run.call, Run.await, Run.ret, Run.throw.
  destruct (resolution fmt aspect) as [w h].
  destruct (canvasContext env); [|reflexivity].
  destruct (preload env scenes) as [loadedScenes|reason|]; try reflexivity.
  destruct (executor env (timelineScenes loadedScenes)
              (totalDuration loadedScenes)).
  reflexivity.
Qed.

End Runs.

(** ** Preload *)

Section Preload.

Import Exporter.

Lemma Promise_all_fulfilled {A : Type} (ps : list (Settled A)) (vs : list A) :
  Promise_all ps = Fulfilled vs -> ps = map Fulfilled vs.
Proof.
  revert vs. induction ps as [|p rest IH]; intros vs H; simpl in H.
  - inversion H. reflexivity.
  - destruct p as [v|r|].
    + destruct (Promise_all rest) as [ws|r|]; try discriminate.
      inversion H; subst. simpl. now rewrite (IH ws eq_refl).
    + discriminate.
    + destruct (Promise_all rest); discriminate.
Qed.

Lemma Promise_all_rejected {A : Type} (ps : list (Settled A)) (r : string) :
  Promise_all ps = Rejected r -> In (Rejected r) ps.
Proof.
  induction ps as [|p rest IH]; intros H; simpl in H.
  - discriminate.
  - destruct p as [v|r'|].
    + destruct (Promise_all rest) as [ws|r'|]; try discriminate.
      inversion H; subst. right. now apply IH.
    + inversion H; subst. now left.
    + destruct (Promise_all rest) as [ws|r'|]; try discriminate.
      inversion H; subst. right. now apply IH.
Qed.


(** A scene's promise fulfils exactly when its image loads; the audio only
    fills in the buffer. *)
Lemma loadScene_fulfilled (env : Env) (s : Scene) (l : LoadedScene) :
  loadScene env s = Fulfilled l ->
  scene l = s /\
  loadSceneImage env s = Fulfilled (img l) /\
  audioBuffer l = loadSceneAudio env s /\
  finalDuration l = finalDurationOf (audioBuffer l) s.
Proof.
  unfold loadScene. destruct (loadSceneImage env s) as [image|r|];
    intros H; try discriminate.
  inversion H; subst. simpl. repeat split; reflexivity.
Qed.

Lemma loadScene_rejected (env : Env) (s : Scene) (r : string) :
  loadScene env s = Rejected r -> loadSceneImage env s = Rejected r.
Proof.
  unfold loadScene. destruct (loadSceneImage env s) as [image|r'|];
    intros H; try discriminate.
  inversion H. reflexivity.
Qed.


Lemma preload_fulfilled (env : Env) (scenes : list Scene) :
  forall loadedScenes,
    map (loadScene env) scenes = map Fulfilled loadedScenes ->
    map scene loadedScenes = scenes /\
    Forall (fun l =>
              loadSceneImage env (scene l) = Fulfilled (img l) /\
              audioBuffer l = loadSceneAudio env (scene l) /\
              finalDuration l = finalDurationOf (audioBuffer l) (scene l))
           loadedScenes.
Proof.
  induction scenes as [|s rest IH]; intros loadedScenes H;
    destruct loadedScenes as [|l ls]; try discriminate.
  - split; [reflexivity | constructor].
  - simpl in H. inversion H as [[Hl Hrest]].
    destruct (loadScene_fulfilled env s l Hl) as [Hs [Hi [Ha Hd]]].
    destruct (IH ls Hrest) as [Hmap Hall].
    split.
    + simpl. now rewrite Hs, Hmap.
    + constructor; [|exact Hall]. rewrite Hs. now repeat split.
Qed.




End Preload.

(** ** How an export ends *)

Section Endings.

Import Exporter.

Lemma scheduleBuffers_sources (start : number)
    (loadedAudios : list (option AudioBuffer)) :
  forall total scenes c,
    In c (fst (scheduleBuffers start total loadedAudios scenes)) ->
    exists sceneId when, c = SourceStart sceneId when.
Proof.
  induction loadedAudios as [|buffer buffers IH]; intros total scenes c H.
  - contradiction.
  - destruct scenes as [|s rest]; [contradiction|]. simpl in H.
    specialize (IH (total + sceneDuration buffer s) rest c).
    destruct (scheduleBuffers start (total + sceneDuration buffer s) buffers rest)
      as [calls total'].
    destruct buffer; simpl in H.
    + destruct H as [H|H]; [eauto | now apply IH].
    + now apply IH.
Qed.

(** A video export either ends before the recorder is stopped, and then it
    does not fulfil, or it stops the recorder and ends as [onstop] ends. *)
Lemma exportFrames_ends (env : Env) (scenes : list Scene)
    (fmt : ExportFormat) (aspect : ImageAspect) :
  (~ In RecorderStop (Run.calls (exportFrames env scenes fmt aspect)) /\
   forall blob,
     Run.outcome (exportFrames env scenes fmt aspect) <> Fulfilled blob) \/
  (exists before,
     exportFrames env scenes fmt aspect
     = ((before ++ RecorderStop :: Run.calls (onstop env))%list,
        Run.outcome (onstop env))).
Proof.
  rewrite exportFrames_run. destruct (resolution fmt aspect) as [w h].
  destruct (canvasContext env).
  2:{ left. split; [|discriminate]. simpl. intros [H|[]]. discriminate H. }
  destruct (preload env scenes) as [loadedScenes|reason|].
  2,3: left; split; [|discriminate]; simpl; intros H;
       repeat (destruct H as [H|H]; try discriminate H); contradiction.
  destruct (executor_run env (timelineScenes loadedScenes)
              (totalDuration loadedScenes)) as [frames [[_ H]|[_ H]]];
    rewrite H.
  - left. split; [|discriminate]. unfold Run.calls. cbn [fst]. intros Hin.
    simpl in Hin.
    repeat (destruct Hin as [Hin|Hin]; try discriminate Hin).
    apply in_app_or in Hin. destruct Hin as [Hin|Hin].
    + rewrite scheduleAudio_sources in Hin. apply in_map_iff in Hin.
      destruct Hin as [e [He _]]. discriminate He.
    + destruct Hin as [Hin|Hin]; [discriminate Hin|].
      apply in_map_iff in Hin. destruct Hin as [f [Hf _]]. discriminate Hf.
  - right.
    exists ([CreateCanvas w h; Paint FillBlack; NewAudioContext;
             CreateMediaStreamDestination; CaptureStream 30;
             NewMediaRecorder (selectedMimeType env) (Some (bitrate fmt));
             AudioContextResume]
            ++ scheduleAudio (clockAtResume env + (1 # 10))
                 (timelineScenes loadedScenes)
            ++ RecorderStart :: map Paint frames)%list.
    reflexivity.
Qed.

Lemma exportAudioOnly_ends (env : Env) (scenes : list Scene) :
  (~ In RecorderStop (Run.calls (exportAudioOnly env scenes)) /\
   forall blob, Run.outcome (exportAudioOnly env scenes) <> Fulfilled blob) \/
  (exists before,
     exportAudioOnly env scenes
     = ((before ++ RecorderStop :: Run.calls (audio_onstop env))%list,
        Run.outcome (audio_onstop env))).
Proof.
  rewrite exportAudioOnly_run.
  destruct (audioExecutor_run env (map (loadSceneAudio env) scenes) scenes)
    as [[_ H]|[_ H]]; rewrite H.
  - left. split; [|discriminate]. unfold Run.calls. cbn [fst]. intros Hin.
    repeat (destruct Hin as [Hin|Hin]; try discriminate Hin).
    apply scheduleBuffers_sources in Hin.
    destruct Hin as [i [w Hin]]. discriminate Hin.
  - right.
    exists (NewAudioContext :: CreateMediaStreamDestination
              :: NewMediaRecorder (selectedMime env) None
              :: RecorderStart :: AudioContextResume
              :: fst (scheduleBuffers (clockAtResume env + (1 # 10)) 0
                        (map (loadSceneAudio env) scenes) scenes))%list.
    reflexivity.
Qed.

(** With a canvas, every image loaded and a clock that reaches the total,
    the video export stops its recorder, and so settles; the audio export
    needs only the clock. *)
Lemma export_reaches_stop (env : Env) (scenes : list Scene)
    (fmt : ExportFormat) (aspect : ImageAspect)
    (loadedScenes : list LoadedScene) :
  canvasContext env = true ->
  preload env scenes = Fulfilled loadedScenes ->
  Exists (fun r => totalDuration loadedScenes
                   <= Math_max 0 (r - (clockAtResume env + (1 # 10))))
         (clockReadings env) ->
  In RecorderStop (Run.calls (exportFrames env scenes fmt aspect)) /\
  Run.outcome (exportFrames env scenes fmt aspect) <> Pending.
Proof.
  intros Hctx Hpre Hclock.
  apply (renderLoop_stops (timelineScenes loadedScenes)) in Hclock.
  rewrite exportFrames_run, Hctx, Hpre.
  destruct (resolution fmt aspect) as [w h].
  destruct (executor_run env (timelineScenes loadedScenes)
              (totalDuration loadedScenes)) as [frames [[Hl H]|[Hl H]]];
    [congruence|].
  rewrite H, onstop_run. unfold Run.calls, Run.outcome. cbn [fst snd]. split.
  - apply in_or_app. right. do 2 right. apply in_or_app. right. now left.
  - destruct (size (videoBlob env) =? 0)%N; discriminate.
Qed.

Lemma audio_export_reaches_stop (env : Env) (scenes : list Scene) :
  Exists (fun r =>
            snd (scheduleBuffers (clockAtResume env + (1 # 10)) 0
                   (map (loadSceneAudio env) scenes) scenes)
            <= r - (clockAtResume env + (1 # 10)))
         (clockReadings env) ->
  In RecorderStop (Run.calls (exportAudioOnly env scenes)) /\
  Run.outcome (exportAudioOnly env scenes) <> Pending.
Proof.
  intros Hclock. apply audioLoop_stops in Hclock.
  rewrite exportAudioOnly_run.
  destruct (audioExecutor_run env (map (loadSceneAudio env) scenes) scenes)
    as [[Hl H]|[Hl H]]; [congruence|].
  rewrite H, audio_onstop_run. unfold Run.calls, Run.outcome. cbn [fst snd].
  split.
  - do 3 right. apply in_or_app. right. now left.
  - destruct (size (audioBlob env) =? 0)%N; discriminate.
Qed.

(** When the preload rejects, the export rejects with an audio context
    created and never closed. *)
Lemma rejected_preload_leaks (env : Env) (scenes : list Scene) (fmt : ExportFormat)
    (aspect : ImageAspect) (reason : string) :
  canvasContext env = true ->
  preload env scenes = Rejected reason ->
  Run.outcome (exportFrames env scenes fmt aspect) = Rejected reason /\
  contextsLeftOpen (Run.calls (exportFrames env scenes fmt aspect)) = 1%nat.
Proof.
  intros Hctx Hpre. rewrite exportFrames_run, Hctx, Hpre.
  destruct (resolution fmt aspect). split; reflexivity.
Qed.

(** A video export that stops its recorder goes on to stop both tracks and
    to close the audio context. *)
Lemma finished_export_cleans_up (env : Env) (scenes : list Scene)
    (fmt : ExportFormat) (aspect : ImageAspect) :
  In RecorderStop (Run.calls (exportFrames env scenes fmt aspect)) ->
  In (TrackStop CanvasVideoTrack)
     (Run.calls (exportFrames env scenes fmt aspect)) /\
  In (TrackStop DestinationAudioTrack)
     (Run.calls (exportFrames env scenes fmt aspect)) /\
  In AudioContextClose (Run.calls (exportFrames env scenes fmt aspect)).
Proof.
  intros Hin.
  destruct (exportFrames_ends env scenes fmt aspect) as [[Hno _]|[before H]];
    [contradiction|].
  rewrite H, onstop_run. unfold Run.calls. cbn [fst].
  repeat split; apply in_or_app; right; simpl; tauto.
Qed.

(** A fulfilled export returns the blob its [onstop] handler assembled. *)
Lemma fulfilled_blob (env : Env) (scenes : list Scene)
    (options : ExportOptions) (blob : Blob) :
  Run.outcome (exportVideo env scenes options) = Fulfilled blob ->
  blob = match format options with
         | AudioOnly => audioBlob env
         | _ => videoBlob env
         end.
Proof.
  unfold exportVideo. intros H.
  assert (Hv : forall fmt aspect,
            Run.outcome (exportFrames env scenes fmt aspect) = Fulfilled blob ->
            blob = videoBlob env).
  { intros fmt aspect Hf.
    destruct (exportFrames_ends env scenes fmt aspect)
      as [[_ Hnf]|[before He]]; [now elim (Hnf blob)|].
    rewrite He, onstop_run in Hf. unfold Run.outcome in Hf. cbn [snd] in Hf.
    destruct (size (videoBlob env) =? 0)%N; [discriminate|].
    now inversion Hf. }
  destruct (format options); try (now apply (Hv _ _ H)).
  destruct (exportAudioOnly_ends env scenes) as [[_ Hnf]|[before He]];
    [now elim (Hnf blob)|].
  rewrite He, audio_onstop_run in H. unfold Run.outcome in H. cbn [snd] in H.
  destruct (size (audioBlob env) =? 0)%N; [discriminate|].
  now inversion H.
Qed.

(** C7, on the failing input.  When the image of a scene fails to load the
    export rejects after it has created its audio context: the context is
    never closed. *)
Theorem failed_image_leaves_context_open :
  Run.outcome (exportVideo envBrokenImage scenarioA options1080)
    = Rejected "Failed to load image for scene 0" /\
  In NewAudioContext
     (Run.calls (exportVideo envBrokenImage scenarioA options1080)) /\
  ~ In AudioContextClose
       (Run.calls (exportVideo envBrokenImage scenarioA options1080)) /\
  contextsLeftOpen
    (Run.calls (exportVideo envBrokenImage scenarioA options1080)) = 1%nat.
Proof.
  split; [reflexivity|]. split; [|split; [|reflexivity]].
  - vm_compute. tauto.
  - vm_compute. intros H.
    repeat (destruct H as [H|H]; try discriminate H). exact H.
Qed.

(** C8.  An export never fulfils with an empty blob: a fulfilled export
    returns the blob assembled from the recorder's chunks, and that blob is
    not empty.  When the assembled blob is empty, an export that reaches the
    recorder's stop rejects, with "Recording failed: Output file is empty."
    for video and "Audio export failed: Empty file" for audio only. *)
Theorem empty_output_is_failure (env : Env) (scenes : list Scene)
    (options : ExportOptions) :
  let run := exportVideo env scenes options in
  let assembled :=
    match format options with
    | AudioOnly => audioBlob env
    | _ => videoBlob env
    end in
  (forall blob,
     Run.outcome run = Fulfilled blob ->
     blob = assembled /\ (0 < size blob)%N) /\
  (size assembled = 0%N ->
   In RecorderStop (Run.calls run) ->
   Run.outcome run
   = Rejected (match format options with
               | AudioOnly => "Audio export failed: Empty file"
               | _ => "Recording failed: Output file is empty."
               end)).
Proof.
  intros run assembled.
  assert (Hv : format options <> AudioOnly ->
               run = exportFrames env scenes (format options)
                                  (aspectRatio options) /\
               assembled = videoBlob env)
    by (unfold run, assembled, exportVideo;
        destruct (format options); intros H; split; congruence).
  assert (Ha : format options = AudioOnly ->
               run = exportAudioOnly env scenes /\ assembled = audioBlob env)
    by (unfold run, assembled, exportVideo; intros ->; now split).
  destruct (format options) eqn:Efmt.
  5:{ destruct (Ha eq_refl) as [-> ->].
      destruct (exportAudioOnly_ends env scenes) as [[Hno Hnf]|[before H]].
      - split; [intros blob Hb; now elim (Hnf blob) | intros _ Hin; contradiction].
      - rewrite H, audio_onstop_run. unfold Run.outcome, Run.calls. cbn [fst snd].
        split.
        + intros blob Hb.
          destruct (size (audioBlob env) =? 0)%N eqn:E; [discriminate|].
          inversion Hb; subst. split; [reflexivity|].
          apply N.eqb_neq in E. lia.
        + intros Hz _. now rewrite Hz. }
  all: destruct Hv as [-> ->]; [discriminate|];
    destruct (exportFrames_ends env scenes (format options)
                (aspectRatio options)) as [[Hno Hnf]|[before H]];
    rewrite Efmt in *;
    [ split; [intros blob Hb; now elim (Hnf blob)
             |intros _ Hin; contradiction]
    | rewrite H, onstop_run; unfold Run.outcome, Run.calls; cbn [fst snd];
      split;
      [ intros blob Hb;
        destruct (size (videoBlob env) =? 0)%N eqn:E; [discriminate|];
        inversion Hb; subst; split; [reflexivity|];
        apply N.eqb_neq in E; lia
      | intros Hz _; now rewrite Hz ] ].
Qed.

Lemma empty_output_is_failure_witness :
  Run.outcome (exportVideo envEmptyCapture scenarioA options1080)
  = Rejected "Recording failed: Output file is empty.".
Proof.
  apply (proj2 (empty_output_is_failure envEmptyCapture scenarioA options1080)).
  - reflexivity.
  - vm_compute. tauto.
Defined.

End Endings.

(** ** Codec negotiation *)

Section Negotiation.

Import Exporter.

(** [find] returns the first element that passes the test. *)
Lemma find_first {A : Type} (p : A -> bool) (l : list A) :
  match find p l with
  | Some x =>
      exists earlier later,
        l = (earlier ++ x :: later)%list /\ p x = true /\
        Forall (fun u => p u = false) earlier
  | None => Forall (fun u => p u = false) l
  end.
Proof.
  induction l as [|h rest IH]; simpl.
  - constructor.
  - destruct (p h) eqn:E.
    + exists [], rest. repeat split; [exact E | constructor].
    + destruct (find p rest) as [x|].
      * destruct IH as [earlier [later [Hl [Hx Hall]]]].
        exists (h :: earlier), later. rewrite Hl.
        repeat split; [exact Hx | now constructor].
      * now constructor.
Qed.

Lemma negotiated_or_empty (supported : string -> bool)
    (preferences : list string) :
  Forall (fun u => String.eqb u EmptyString = false) preferences ->
  Negotiated supported preferences
    (jsOrStr (find supported preferences) EmptyString).
Proof.
  intros Hne. pose proof (find_first supported preferences) as H.
  destruct (find supported preferences) as [x|].
  - destruct H as [earlier [later [Hl [Hx Hall]]]].
    assert (Hin : In x preferences)
      by (rewrite Hl; apply in_or_app; right; now left).
    rewrite Forall_forall in Hne. specialize (Hne x Hin).
    unfold jsOrStr, truthyStr. rewrite Hne.
    now apply (first_supported _ _ earlier later).
  - now apply none_supported.
Qed.

Lemma negotiated_video (env : Env) :
  Negotiated (isTypeSupported env) mimeTypes (selectedMimeType env).
Proof.
  assert (Hne : Forall (fun u => String.eqb u EmptyString = false) mimeTypes)
    by (repeat constructor).
  pose proof (negotiated_or_empty (isTypeSupported env) mimeTypes Hne) as H.
  unfold selectedMimeType.
  destruct H as [earlier later chosen Hl Hs Hall | Hnone].
  - assert (Hin : In chosen mimeTypes)
      by (rewrite Hl; apply in_or_app; right; now left).
    rewrite Forall_forall in Hne. rewrite (Hne chosen Hin).
    now apply (first_supported _ _ earlier later).
  - rewrite String.eqb_refl.
    pose proof Hnone as Hall. rewrite Forall_forall in Hall.
    rewrite (Hall "video/mp4"), (Hall "video/webm");
      [now apply none_supported | simpl; tauto | simpl; tauto].
Qed.

Lemma negotiated_audio (env : Env) :
  Negotiated (isTypeSupported env) audioMimeTypes (selectedMime env).
Proof.
  apply negotiated_or_empty. repeat constructor.
Qed.






End Negotiation.

(** * Further properties of the player, the app and the exporter *)

(** ** The player's timeline *)

Section PlayerTimeline.

Lemma player_timelineFrom_nth (scenes : list Scene) :
  forall acc i e,
    nth_error (Player.timelineFrom acc scenes) i = Some e ->
    nth_error scenes i = Some (Player.scene e) /\
    Player.duration e = Player.durationOf (Player.scene e) /\
    Player.start e
      = fold_left Qplus (map Player.durationOf (firstn i scenes)) acc /\
    Player.end_ e = Player.start e + Player.duration e.
Proof.
  induction scenes as [|s rest IH]; intros acc i e H.
  - destruct i; discriminate H.
  - destruct i as [|i]; simpl in H.
    + inversion H; subst e. simpl. repeat split; reflexivity.
    + simpl. now apply IH.
Qed.

Lemma player_timelineFrom_length (scenes : list Scene) :
  forall acc, List.length (Player.timelineFrom acc scenes) = List.length scenes.
Proof.
  induction scenes as [|s rest IH]; intros acc; simpl; [reflexivity|].
  now rewrite IH.
Qed.

Lemma player_endOf (scenes : list Scene) :
  forall acc,
    endOf Player.end_ acc (Player.timelineFrom acc scenes)
    = fold_left Qplus (map Player.durationOf scenes) acc.
Proof.
  induction scenes as [|s rest IH]; intros acc; simpl; [reflexivity|].
  apply IH.
Qed.

(** X1.  The player's timeline has one entry per scene, in order; each
    entry carries the player's duration of its scene, starts at the sum of
    the durations before it and ends one duration later; the total is the
    sum of all durations. *)
Theorem player_timeline_layout (scenes : list Scene) :
  List.length (Player.timeline scenes) = List.length scenes /\
  (forall i e,
     nth_error (Player.timeline scenes) i = Some e ->
     nth_error scenes i = Some (Player.scene e) /\
     Player.duration e = Player.durationOf (Player.scene e) /\
     Player.start e
       = sumDurations (map Player.durationOf (firstn i scenes)) /\
     Player.end_ e = Player.start e + Player.duration e) /\
  Player.totalDuration (Player.timeline scenes)
    = sumDurations (map Player.durationOf scenes).
Proof.
  unfold Player.timeline, sumDurations.
  split; [apply player_timelineFrom_length|].
  split; [intros i e H; now apply player_timelineFrom_nth|].
  rewrite player_total. apply player_endOf.
Qed.

Lemma player_timeline_layout_witness :
  exists e,
    nth_error (Player.timeline scenarioA) 2 = Some e /\
    Player.start e = 7 /\
    Player.end_ e = Player.start e + Player.duration e.
Proof.
  eexists. split; [reflexivity|].
  destruct (proj1 (proj2 (player_timeline_layout scenarioA)) 2%nat _ eq_refl)
    as [_ [_ [Hs He]]].
  split; [exact Hs | exact He].
Defined.

End PlayerTimeline.

(** ** Scrubbing, skipping and playing through *)

Section Transport.




(** X4.  Skipping never leaves the timeline: the new index is between 0
    and the last index (0 on an empty timeline), skipping forward from the
    last scene and backward from the first stays put, and from any scene
    but the last, forward then backward returns to it. *)
Theorem skip_stays_on_timeline (timeline : list Player.TimelineEntry)
    (st : Player.State) :
  let last := (Z.of_nat (List.length timeline) - 1)%Z in
  let index := Player.currentSceneIndex st in
  (forall direction,
     (0 <= Player.currentSceneIndex (Controls.skip timeline direction st)
      <= Z.max 0 last)%Z) /\
  ((0 <= last)%Z -> index = last ->
   Player.currentSceneIndex (Controls.skip timeline Controls.next st)
   = last) /\
  (index = 0%Z ->
   Player.currentSceneIndex (Controls.skip timeline Controls.prev st) = 0%Z) /\
  ((0 <= index < last)%Z ->
   Player.currentSceneIndex
     (Controls.skip timeline Controls.prev
        (Controls.skip timeline Controls.next st)) = index).
Proof.
  intros last index. unfold Controls.skip.
  cbn [Player.currentSceneIndex]. fold last. fold index.
  repeat split.
  - destruct direction; lia.
  - destruct direction; lia.
  - lia.
  - lia.
  - lia.
Qed.

Lemma skip_stays_on_timeline_witness :
  Player.currentSceneIndex
    (Controls.skip (Player.timeline scenarioA) Controls.prev
       (Controls.skip (Player.timeline scenarioA) Controls.next initialState))
  = 0%Z.
Proof.
  apply (proj2 (proj2 (proj2
           (skip_stays_on_timeline (Player.timeline scenarioA) initialState)))).
  simpl. lia.
Defined.

(** The state after [k] scenes have ended. *)
Lemma sceneEnds_index (timeline : list Player.TimelineEntry) (k : nat) :
  forall st,
    (0 <= Player.currentSceneIndex st)%Z ->
    (Player.currentSceneIndex st + Z.of_nat k
     <= Z.of_nat (List.length timeline) - 1)%Z ->
    Player.currentSceneIndex
      (Nat.iter k (Controls.handleSceneEnd timeline) st)
    = (Player.currentSceneIndex st + Z.of_nat k)%Z /\
    Player.isPlaying (Nat.iter k (Controls.handleSceneEnd timeline) st)
    = Player.isPlaying st.
Proof.
  induction k as [|k IH]; intros st H0 Hk.
  - simpl. split; [lia | reflexivity].
  - destruct (IH st H0 ltac:(lia)) as [Hi Hp].
    rewrite !Nat.iter_succ.
    set (st' := Nat.iter k (Controls.handleSceneEnd timeline) st) in *.
    unfold Controls.handleSceneEnd. rewrite Hi.
    destruct (Player.currentSceneIndex st + Z.of_nat k
              <? Z.of_nat (List.length timeline) - 1)%Z eqn:E;
      [|apply Z.ltb_ge in E; lia].
    cbn [Player.currentSceneIndex Player.isPlaying]. split; [lia | exact Hp].
Qed.

(** X5.  Playing through: from a scene of the timeline, each scene end
    moves to the next scene and keeps the play state until the last scene;
    the end of the last scene stops playback and rewinds to scene 0 with
    progress 0. *)
Theorem playing_through (timeline : list Player.TimelineEntry)
    (st : Player.State) (k : nat) :
  (0 <= Player.currentSceneIndex st)%Z ->
  (Player.currentSceneIndex st + Z.of_nat k
   = Z.of_nat (List.length timeline) - 1)%Z ->
  (forall j, (j <= k)%nat ->
     Player.currentSceneIndex
       (Nat.iter j (Controls.handleSceneEnd timeline) st)
     = (Player.currentSceneIndex st + Z.of_nat j)%Z /\
     Player.isPlaying (Nat.iter j (Controls.handleSceneEnd timeline) st)
     = Player.isPlaying st) /\
  Nat.iter (S k) (Controls.handleSceneEnd timeline) st
  = {| Player.isPlaying := false; Player.currentSceneIndex := 0;
       Player.sceneProgress := 0 |}.
Proof.
  intros H0 Hk. split.
  - intros j Hj. apply sceneEnds_index; [exact H0 | lia].
  - destruct (sceneEnds_index timeline k st H0 ltac:(lia)) as [Hi _].
    rewrite !Nat.iter_succ.
    set (st' := Nat.iter k (Controls.handleSceneEnd timeline) st) in *.
    unfold Controls.handleSceneEnd. rewrite Hi.
    destruct (Player.currentSceneIndex st + Z.of_nat k
              <? Z.of_nat (List.length timeline) - 1)%Z eqn:E;
      [apply Z.ltb_lt in E; lia | reflexivity].
Qed.

Lemma playing_through_witness :
  Nat.iter 3 (Controls.handleSceneEnd (Player.timeline scenarioA))
    (Controls.togglePlay initialState)
  = {| Player.isPlaying := false; Player.currentSceneIndex := 0;
       Player.sceneProgress := 0 |}.
Proof.
  assert (H0 : (0 <= Player.currentSceneIndex
                       (Controls.togglePlay initialState))%Z)
    by (simpl; lia).
  exact (proj2 (playing_through (Player.timeline scenarioA)
                  (Controls.togglePlay initialState) 2 H0 eq_refl)).
Defined.

End Transport.

(** ** The duration editor *)

Section DurationEditor.

Lemma jsOr_nullish (x : option number) : jsOr x 0 == nullish x.
Proof.
  unfold jsOr, nullish. destruct x as [v|]; [|reflexivity].
  destruct (Qeq_bool v 0) eqn:E; [|reflexivity].
  apply Qeq_bool_eq in E. now rewrite E.
Qed.

(** X7.  The player's duration editor.  A value above zero is sent on as
    the scene's manual duration; the player then shows the larger of that
    value and the recorded audio length, and the exporter, given a buffer
    of the recorded length, renders the same duration.  Zero, negative and
    unparsable values change nothing. *)
Theorem duration_edit (data : Player.TimelineEntry) :
  (forall v : number,
     0 < v ->
     exists s',
       Controls.onDurationChange data (Some v) = Some s' /\
       id s' = id (Player.scene data) /\
       Player.durationOf s'
         == Qmax v (nullish (audioDuration (Player.scene data))) /\
       forall audioBuffer,
         option_map duration audioBuffer = audioDuration (Player.scene data) ->
         Exporter.finalDurationOf audioBuffer s' == Player.durationOf s') /\
  (forall v : number,
     v <= 0 -> Controls.onDurationChange data (Some v) = None) /\
  Controls.onDurationChange data None = None.
Proof.
  split; [|split].
  - intros v Hv.
    assert (Hnz : ~ v == 0) by lra.
    exists (withManualDuration (Player.scene data) v).
    unfold Controls.onDurationChange.
    apply Qlt_bool_iff in Hv. rewrite Hv.
    split; [reflexivity|]. split; [reflexivity|].
    unfold Player.durationOf, Exporter.finalDurationOf, withManualDuration.
    cbn [manualDuration estimatedDuration audioDuration].
    rewrite (jsOrOpt_set (Some v) (audioDuration (Player.scene data)) v
               eq_refl Hnz).
    rewrite !(jsOr_set (Some v) _ v eq_refl Hnz).
    unfold Math_max. split.
    + now rewrite jsOr_nullish.
    + intros audioBuffer Hb. rewrite Hb. apply Q.max_comm.
  - intros v Hv. unfold Controls.onDurationChange.
    destruct (Qlt_bool 0 v) eqn:E; [|reflexivity].
    apply Qlt_bool_iff in E. lra.
  - reflexivity.
Qed.

Lemma duration_edit_witness :
  exists s',
    Controls.onDurationChange
      {| Player.scene := narrated4; Player.duration := 4;
         Player.start := 0; Player.end_ := 4 |} (Some 7) = Some s' /\
    Player.durationOf s' == 7.
Proof.
  assert (H7 : 0 < 7) by reflexivity.
  destruct (proj1 (duration_edit
                     {| Player.scene := narrated4; Player.duration := 4;
                        Player.start := 0; Player.end_ := 4 |}) 7 H7)
    as [s' [Hs [_ [Hd _]]]].
  exists s'. split; [exact Hs|].
  rewrite Hd. reflexivity.
Defined.

End DurationEditor.

(** ** The app: updating a scene, choosing what to export *)

Section AppHandlers.

(** X8.  Updating a scene keeps the list's length, order and ids; every
    scene carrying the updated id becomes the updated scene, every other
    scene stays; with no such id the list is unchanged; and updating twice
    is updating once. *)
Theorem update_keeps_ids (updatedScene : Scene) (prev : list Scene) :
  map id (App.handleUpdateScene updatedScene prev) = map id prev /\
  (forall i s,
     nth_error prev i = Some s ->
     nth_error (App.handleUpdateScene updatedScene prev) i
     = Some (if String.eqb (id s) (id updatedScene) then updatedScene else s)) /\
  ((forall s, In s prev -> id s <> id updatedScene) ->
   App.handleUpdateScene updatedScene prev = prev) /\
  App.handleUpdateScene updatedScene
    (App.handleUpdateScene updatedScene prev)
  = App.handleUpdateScene updatedScene prev.
Proof.
  unfold App.handleUpdateScene. repeat split.
  - rewrite map_map. apply map_ext. intros s.
    destruct (String.eqb_spec (id s) (id updatedScene)) as [E|E];
      [now rewrite E | reflexivity].
  - intros i s H. rewrite nth_error_map, H. reflexivity.
  - intros Hno. rewrite <- (map_id prev) at 2. apply map_ext_in.
    intros s Hs. destruct (String.eqb_spec (id s) (id updatedScene)) as [E|E];
      [elim (Hno s Hs E) | reflexivity].
  - rewrite map_map. apply map_ext. intros s.
    destruct (String.eqb_spec (id s) (id updatedScene)) as [E|E].
    + now rewrite String.eqb_refl.
    + apply String.eqb_neq in E. now rewrite E.
Qed.

Lemma update_keeps_ids_witness :
  App.handleUpdateScene (sampleScene 9 "zz" 1 None None None None) scenarioA
  = scenarioA.
Proof.
  apply (proj1 (proj2 (proj2
           (update_keeps_ids (sampleScene 9 "zz" 1 None None None None)
              scenarioA)))).
  intros s Hs. simpl in Hs.
  repeat (destruct Hs as [Hs|Hs]; [subst s; discriminate|]).
  contradiction.
Defined.

End AppHandlers.

Section AppExport.

Import Exporter.

Lemma negotiated_in (supported : string -> bool) (preferences : list string)
    (chosen : string) :
  Negotiated supported preferences chosen ->
  In chosen preferences \/ chosen = EmptyString.
Proof.
  intros [earlier later c Hl _ _ | _]; [left | now right].
  rewrite Hl. apply in_or_app. right. now left.
Qed.



(** X10.  The extension of the download follows the negotiated type.  A
    video is saved as [webm] exactly when one of the two WebM types was
    negotiated, and as [mp4] otherwise, also when nothing was negotiated.
    An audio-only export is saved as [wav] exactly when the negotiated type
    is [audio/webm] or [audio/ogg], and as [m4a] otherwise. *)
Theorem download_extension (env : Env) (imageAspect : ImageAspect)
    (scenes : list Scene) (format : ExportFormat) (ext : string) (blob : Blob) :
  App.handleExportVideo env imageAspect scenes format = App.Download ext blob ->
  match format with
  | AudioOnly =>
      ext = if String.eqb (selectedMime env) "audio/webm"
               || String.eqb (selectedMime env) "audio/ogg"
            then "wav" else "m4a"
  | _ =>
      ext = if String.eqb (selectedMimeType env) "video/webm; codecs=vp9"
               || String.eqb (selectedMimeType env) "video/webm"
            then "webm" else "mp4"
  end.
Proof.
  unfold App.handleExportVideo.
  destruct (List.length (App.readyScenes scenes) =? 0)%nat; [discriminate|].
  destruct (Run.outcome
              (exportVideo env (App.readyScenes scenes)
                 {| aspectRatio := imageAspect; Exporter.format := format |}))
    as [b|r|] eqn:E; try discriminate.
  intros H. inversion H; subst ext blob. clear H.
  apply fulfilled_blob in E. cbn [Exporter.format] in E.
  assert (Hvideo :
    App.includes (type (videoBlob env)) "webm"
    = String.eqb (selectedMimeType env) "video/webm; codecs=vp9"
      || String.eqb (selectedMimeType env) "video/webm").
  { unfold videoBlob, newBlob. cbn [type].
    destruct (negotiated_in _ _ _ (negotiated_video env)) as [Hin|Hem].
    - simpl in Hin.
      repeat (destruct Hin as [Hin|Hin]; [rewrite <- Hin; reflexivity|]).
      contradiction.
    - rewrite Hem. reflexivity. }
  assert (Haudio :
    App.includes (type (audioBlob env)) "mp4"
    || App.includes (type (audioBlob env)) "aac"
    = negb (String.eqb (selectedMime env) "audio/webm"
            || String.eqb (selectedMime env) "audio/ogg")).
  { unfold audioBlob, newBlob. cbn [type].
    destruct (negotiated_in _ _ _ (negotiated_audio env)) as [Hin|Hem].
    - simpl in Hin.
      repeat (destruct Hin as [Hin|Hin]; [rewrite <- Hin; reflexivity|]).
      contradiction.
    - rewrite Hem. reflexivity. }
  destruct format; subst b; unfold App.extension;
    try (rewrite Hvideo; reflexivity).
  rewrite Haudio.
  now destruct (String.eqb (selectedMime env) "audio/webm"
                || String.eqb (selectedMime env) "audio/ogg").
Qed.

End AppExport.

Lemma download_extension_witness :
  "webm"
  = if String.eqb (Exporter.selectedMimeType envA) "video/webm; codecs=vp9"
       || String.eqb (Exporter.selectedMimeType envA) "video/webm"
    then "webm" else "mp4".
Proof.
  exact (download_extension envA SixteenNine scenarioA Video1080p "webm"
           {| size := 4096; type := "video/webm" |} eq_refl).
Defined.

(** ** The exporter: frame size, early exits, chunks *)

Section ExporterEdges.

Import Exporter.

(** X11.  The frame size.  For every format the wide frame is 16:9 with a
    positive height; the tall frame is the wide frame transposed; the
    square frame takes the wide frame's height, its short edge, for both
    sides. *)
Theorem resolution_shape (fmt : ExportFormat) :
  exists w h,
    resolution fmt SixteenNine = (w, h) /\
    (0 < h < w)%Z /\ (9 * w = 16 * h)%Z /\
    resolution fmt NineSixteen = (h, w) /\
    resolution fmt OneOne = (h, h).
Proof.
  destruct fmt; eexists; eexists; (split; [reflexivity|]);
    repeat split; try reflexivity; lia.
Qed.

(** X12.  Without a 2D context the video export rejects with "Could not
    create canvas context" having only created the canvas: no audio
    context is opened and nothing is loaded. *)
Theorem no_canvas_context (env : Env) (scenes : list Scene)
    (options : ExportOptions) :
  format options <> AudioOnly ->
  canvasContext env = false ->
  exists w h,
    exportVideo env scenes options
    = ([CreateCanvas w h], Rejected "Could not create canvas context").
Proof.
  intros Hfmt Hctx.
  assert (E : exportVideo env scenes options
              = exportFrames env scenes (format options) (aspectRatio options))
    by (unfold exportVideo; destruct (format options); congruence).
  rewrite E, exportFrames_run, Hctx.
  destruct (resolution (format options) (aspectRatio options)) as [w h].
  now exists w, h.
Qed.

Lemma no_canvas_context_witness :
  exists w h,
    exportVideo
      {| canvasContext := false; loadImage := loadImage envA;
         decodeAudio := decodeAudio envA;
         isTypeSupported := isTypeSupported envA; clockAtResume := 0;
         clockReadings := clockReadings envA;
         dataavailable := dataavailable envA |} scenarioA options1080
    = ([CreateCanvas w h], Rejected "Could not create canvas context").
Proof.
  apply no_canvas_context; [discriminate | reflexivity].
Defined.

(** X13.  The empty scene list is not an error.  With a 2D context, the
    video export of no scenes schedules no audio, paints no scene, stops
    the recorder at the first clock reading and cleans up; it then settles
    by the size of the captured blob alone. *)
Theorem empty_scene_list (env : Env) (options : ExportOptions)
    (reading : number) (later : list number) :
  format options <> AudioOnly ->
  canvasContext env = true ->
  clockReadings env = reading :: later ->
  exists w h,
    exportVideo env [] options
    = ([CreateCanvas w h; Paint FillBlack; NewAudioContext;
        CreateMediaStreamDestination; CaptureStream 30;
        NewMediaRecorder (selectedMimeType env)
                         (Some (bitrate (format options)));
        AudioContextResume; RecorderStart; RecorderStop;
        TrackStop CanvasVideoTrack; TrackStop DestinationAudioTrack;
        TrackStop CanvasVideoTrack; AudioContextClose],
       if (size (videoBlob env) =? 0)%N
       then Rejected "Recording failed: Output file is empty."
       else Fulfilled (videoBlob env)).
Proof.
  intros Hfmt Hctx Hclock.
  assert (E : exportVideo env [] options
              = exportFrames env [] (format options) (aspectRatio options))
    by (unfold exportVideo; destruct (format options); congruence).
  assert (H0 : Qle_bool 0 (Math_max 0 (reading - (clockAtResume env + (1 # 10))))
               = true) by (apply Qle_bool_iff; apply Math_max_l).
  assert (Hex : executor env (timelineScenes []) (totalDuration [])
                = ([AudioContextResume; RecorderStart; RecorderStop;
                    TrackStop CanvasVideoTrack; TrackStop DestinationAudioTrack;
                    TrackStop CanvasVideoTrack; AudioContextClose],
                   if (size (videoBlob env) =? 0)%N
                   then Rejected "Recording failed: Output file is empty."
                   else Fulfilled (videoBlob env))).
  { unfold executor. rewrite Hclock.
    change (timelineScenes []) with (@nil TimelineScene).
    change (totalDuration []) with 0.
    cbn [renderLoop scheduleAudio]. unfold renderPass. rewrite H0, onstop_run.
    reflexivity. }
  rewrite E, exportFrames_run, Hctx.
  destruct (resolution (format options) (aspectRatio options)) as [w h].
  exists w, h.
  change (preload env []) with (@Fulfilled (list LoadedScene) []).
  cbv iota beta zeta. rewrite Hex. reflexivity.
Qed.

Lemma empty_scene_list_witness :
  exists w h,
    exportVideo envA [] options1080
    = ([CreateCanvas w h; Paint FillBlack; NewAudioContext;
        CreateMediaStreamDestination; CaptureStream 30;
        NewMediaRecorder (selectedMimeType envA)
                         (Some (bitrate (format options1080)));
        AudioContextResume; RecorderStart; RecorderStop;
        TrackStop CanvasVideoTrack; TrackStop DestinationAudioTrack;
        TrackStop CanvasVideoTrack; AudioContextClose],
       if (size (videoBlob envA) =? 0)%N
       then Rejected "Recording failed: Output file is empty."
       else Fulfilled (videoBlob envA)).
Proof.
  apply (empty_scene_list envA options1080 0 [1; 6; 9; 20]);
    [discriminate | reflexivity | reflexivity].
Defined.

Lemma fold_left_add_acc (l : list N) (a : N) :
  fold_left N.add l a = (a + fold_left N.add l 0)%N.
Proof.
  revert a. induction l as [|x rest IH]; intros a; simpl.
  - lia.
  - rewrite (IH (a + x)%N), (IH x). lia.
Qed.

Lemma kept_chunks_size (events : list Blob) :
  forall chunks,
    fold_left N.add (map size (fold_left ondataavailable events chunks)) 0%N
    = (fold_left N.add (map size chunks) 0
       + fold_left N.add (map size events) 0)%N.
Proof.
  induction events as [|e rest IH]; intros chunks; simpl.
  - lia.
  - rewrite IH. unfold ondataavailable.
    rewrite (fold_left_add_acc (map size rest) (size e)).
    destruct (0 <? size e)%N eqn:E.
    + rewrite map_app, fold_left_app. simpl. lia.
    + apply N.ltb_ge in E. lia.
Qed.

(** X14.  Dropping the empty chunks loses nothing: the video blob has the
    size of all the chunks the recorder delivered, the same as the blob the
    audio-only export builds from them without dropping any. *)
Theorem blob_size_counts_every_chunk (env : Env) :
  size (videoBlob env) = fold_left N.add (map size (dataavailable env)) 0%N /\
  size (audioBlob env) = size (videoBlob env).
Proof.
  assert (H : size (videoBlob env)
              = fold_left N.add (map size (dataavailable env)) 0%N).
  { unfold videoBlob, newBlob. cbn [size]. rewrite kept_chunks_size.
    simpl. lia. }
  split; [exact H|]. rewrite H. reflexivity.
Qed.

End ExporterEdges.

(** ** Audio scheduling and the render loop *)

Section Scheduling.

Import Exporter.

Lemma scheduleBuffers_as_timeline (loadedScenes : list LoadedScene) :
  Forall (fun l => finalDuration l = finalDurationOf (audioBuffer l) (scene l))
         loadedScenes ->
  forall start acc,
    scheduleBuffers start acc (map audioBuffer loadedScenes)
                    (map scene loadedScenes)
    = (scheduleAudio start (fst (timelineFrom acc loadedScenes)),
       snd (timelineFrom acc loadedScenes)).
Proof.
  induction 1 as [|l rest Hl _ IH]; intros start acc; simpl.
  - reflexivity.
  - change (sceneDuration (audioBuffer l) (scene l))
      with (finalDurationOf (audioBuffer l) (scene l)).
    rewrite <- Hl, IH.
    destruct (timelineFrom (acc + finalDuration l) rest) as [entries total].
    simpl. destruct (audioBuffer l); reflexivity.
Qed.

Lemma preload_buffers (env : Env) (scenes : list Scene)
    (loadedScenes : list LoadedScene) :
  preload env scenes = Fulfilled loadedScenes ->
  map scene loadedScenes = scenes /\
  map audioBuffer loadedScenes = map (loadSceneAudio env) scenes /\
  Forall (fun l => finalDuration l = finalDurationOf (audioBuffer l) (scene l))
         loadedScenes.
Proof.
  intros H. apply Promise_all_fulfilled in H.
  destruct (preload_fulfilled env scenes loadedScenes H) as [Hmap Hall].
  split; [exact Hmap|]. split.
  - rewrite <- Hmap, map_map. apply map_ext_in. intros l Hl.
    rewrite Forall_forall in Hall. now destruct (Hall l Hl) as [_ [Ha _]].
  - eapply Forall_impl; [|exact Hall]. intros l [_ [_ Hd]]. exact Hd.
Qed.

(** X15.  The two exports keep the same time.  When the images of a scene
    list load, the audio-only export of the list schedules the very
    sources the video export schedules, at the same instants, and waits for
    the same total duration. *)
Theorem audio_only_keeps_video_timing (env : Env) (scenes : list Scene)
    (loadedScenes : list LoadedScene) (start : number) :
  preload env scenes = Fulfilled loadedScenes ->
  scheduleBuffers start 0 (map (loadSceneAudio env) scenes) scenes
  = (scheduleAudio start (timelineScenes loadedScenes),
     totalDuration loadedScenes).
Proof.
  intros H. destruct (preload_buffers env scenes loadedScenes H)
    as [Hs [Ha Hd]].
  rewrite <- Ha, <- Hs. now apply scheduleBuffers_as_timeline.
Qed.

Lemma audio_only_keeps_video_timing_witness :
  scheduleBuffers (1 # 10) 0 (map (loadSceneAudio envA) scenarioA) scenarioA
  = (scheduleAudio (1 # 10) (timelineScenes loadedA), totalDuration loadedA).
Proof.
  apply audio_only_keeps_video_timing. reflexivity.
Defined.

(** With durations that are not negative, entries start in order. *)
Lemma timelineFrom_starts_after (l : list LoadedScene) :
  Forall (fun s => 0 <= finalDuration s) l ->
  forall acc j e,
    nth_error (fst (timelineFrom acc l)) j = Some e -> acc <= startTime e.
Proof.
  induction 1 as [|s rest Hs _ IH]; intros acc j e H.
  - destruct j; discriminate H.
  - simpl in H. specialize (IH (acc + finalDuration s)).
    destruct (timelineFrom (acc + finalDuration s) rest) as [entries total].
    destruct j as [|j]; simpl in H.
    + inversion H; subst e. simpl. lra.
    + specialize (IH j e H). lra.
Qed.

Lemma timelineFrom_ordered (l : list LoadedScene) :
  Forall (fun s => 0 <= finalDuration s) l ->
  forall acc i j ei ej,
    (i < j)%nat ->
    nth_error (fst (timelineFrom acc l)) i = Some ei ->
    nth_error (fst (timelineFrom acc l)) j = Some ej ->
    endTime ei <= startTime ej.
Proof.
  induction 1 as [|s rest Hs Hrest IH]; intros acc i j ei ej Hij Hi Hj.
  - destruct i; discriminate Hi.
  - simpl in Hi, Hj. specialize (IH (acc + finalDuration s)).
    pose proof (timelineFrom_starts_after rest Hrest (acc + finalDuration s))
      as Hafter.
    destruct (timelineFrom (acc + finalDuration s) rest) as [entries total].
    destruct j as [|j]; [lia|]. simpl in Hj.
    destruct i as [|i]; simpl in Hi.
    + inversion Hi; subst ei. simpl. exact (Hafter j ej Hj).
    + apply (IH i j); [lia | exact Hi | exact Hj].
Qed.

(** X16.  Narrations never overlap.  For scenes loaded by the preload
    whose decoded buffers have a length that is not negative, a later
    scene starts no earlier than an earlier scene's start plus the length
    of that scene's audio: no clip is still playing when the next one is
    due. *)
Theorem narrations_never_overlap (env : Env) (scenes : list Scene)
    (loadedScenes : list LoadedScene) :
  preload env scenes = Fulfilled loadedScenes ->
  Forall (fun l => forall b, audioBuffer l = Some b -> 0 <= duration b)
         loadedScenes ->
  forall i j ei ej b,
    (i < j)%nat ->
    nth_error (timelineScenes loadedScenes) i = Some ei ->
    nth_error (timelineScenes loadedScenes) j = Some ej ->
    audioBuffer (loaded ei) = Some b ->
    startTime ei + duration b <= startTime ej.
Proof.
  intros Hpre Hlen i j ei ej b Hij Hi Hj Hb.
  destruct (preload_buffers env scenes loadedScenes Hpre) as [_ [_ Hrule]].
  assert (Hge : Forall (fun l => audioSeconds (audioBuffer l) <= finalDuration l)
                       loadedScenes).
  { eapply Forall_impl; [|exact Hrule]. intros l Hl. cbv beta in Hl.
    rewrite Hl. unfold finalDurationOf. rewrite <- jsOr_audio.
    apply Math_max_l. }
  assert (Hnn : Forall (fun l => 0 <= finalDuration l) loadedScenes).
  { rewrite Forall_forall in *. intros l Hl.
    specialize (Hge l Hl). specialize (Hlen l Hl).
    unfold audioSeconds in Hge.
    destruct (audioBuffer l) as [b'|]; simpl in Hge.
    - specialize (Hlen b' eq_refl). lra.
    - exact Hge. }
  pose proof (timelineFrom_ordered loadedScenes Hnn 0 i j ei ej Hij Hi Hj)
    as Hord.
  destruct (timelineFrom_nth loadedScenes 0 i ei Hi) as [Hli [_ Hend]].
  rewrite Forall_forall in Hge.
  specialize (Hge (loaded ei) (nth_error_In _ _ Hli)).
  rewrite Hb in Hge. unfold audioSeconds in Hge. simpl in Hge.
  rewrite Hend in Hord. lra.
Qed.

Lemma narrations_never_overlap_witness :
  exists ei ej b,
    nth_error (timelineScenes loadedA) 0 = Some ei /\
    nth_error (timelineScenes loadedA) 2 = Some ej /\
    audioBuffer (loaded ei) = Some b /\
    startTime ei + duration b <= startTime ej.
Proof.
  assert (Hlen : Forall (fun l => forall b, audioBuffer l = Some b ->
                                            0 <= duration b) loadedA).
  { repeat constructor; intros b Hb; inversion Hb; subst b;
      apply Qle_bool_iff; reflexivity. }
  do 3 eexists. split; [reflexivity|]. split; [reflexivity|].
  split; [reflexivity|].
  apply (narrations_never_overlap envA scenarioA loadedA eq_refl Hlen 0 2);
    [lia | reflexivity | reflexivity | reflexivity].
Defined.

(** X17.  The render loop follows the clock.  It paints one frame for
    each clock reading, the frame of the scene active at that reading, as
    long as the elapsed time is below the total; at the first reading that
    reaches the total it stops the recorder, once, and looks at no later
    reading. *)
Theorem render_loop_follows_clock (entries : list TimelineScene)
    (total start : number) (before : list number) (reading : number)
    (later : list number) :
  Forall (fun c => Math_max 0 (c - start) < total) before ->
  total <= Math_max 0 (reading - start) ->
  renderLoop entries total start (before ++ reading :: later)%list
  = ((map (fun c =>
             Paint match currentScene entries (Math_max 0 (c - start)) with
                   | Some s => DrawImage (id (scene (loaded s)))
                   | None => FillBlack
                   end) before ++ [RecorderStop])%list,
     Fulfilled tt).
Proof.
  intros Hbefore Hreach.
  induction Hbefore as [|c rest Hc _ IH]; simpl.
  - unfold renderPass. apply Qle_bool_iff in Hreach. now rewrite Hreach.
  - unfold renderPass at 1. apply Qle_bool_false in Hc. rewrite Hc.
    unfold Run.bind, Run.call. rewrite IH.
    now destruct (currentScene entries (Math_max 0 (c - start))).
Qed.

Lemma render_loop_follows_clock_witness :
  renderLoop (timelineScenes loadedA) (totalDuration loadedA) (1 # 10)
    ([0; 1; 6; 9] ++ 20 :: [21])%list
  = ([Paint (DrawImage "s0"); Paint (DrawImage "s0"); Paint (DrawImage "s1");
      Paint (DrawImage "s2"); RecorderStop], Fulfilled tt).
Proof.
  assert (Hb : Forall (fun c => Math_max 0 (c - (1 # 10)) < totalDuration loadedA)
                      [0; 1; 6; 9])
    by (repeat constructor; apply Qlt_bool_iff; reflexivity).
  assert (Hr : totalDuration loadedA <= Math_max 0 (20 - (1 # 10)))
    by (apply Qle_bool_iff; reflexivity).
  exact (render_loop_follows_clock (timelineScenes loadedA)
           (totalDuration loadedA) (1 # 10) [0; 1; 6; 9] 20 [21] Hb Hr).
Defined.

(** X18.  The pre-roll.  A clock reading at or before the audio start
    time counts as time zero: on a timeline of positive durations the pass
    paints the first scene. *)
Theorem preroll_paints_first_scene (s : LoadedScene) (rest : list LoadedScene)
    (audioStartTime currentAudioTime : number) :
  Forall (fun l => 0 < finalDuration l) (s :: rest) ->
  currentAudioTime <= audioStartTime ->
  renderPass (timelineScenes (s :: rest)) (totalDuration (s :: rest))
             audioStartTime currentAudioTime
  = Painted (DrawImage (id (scene s))).
Proof.
  intros Hpos Hpre.
  pose proof (exporter_chained (s :: rest) 0 Hpos) as Hc.
  pose proof (exporter_endOf (s :: rest) 0) as Hend.
  fold (timelineScenes (s :: rest)) in Hc, Hend.
  fold (totalDuration (s :: rest)) in Hend.
  set (t := Math_max 0 (currentAudioTime - audioStartTime)).
  assert (Ht : t == 0).
  { unfold t. destruct (Math_max_cases 0 (currentAudioTime - audioStartTime))
      as [[_ H]|[H1 H]]; [exact H | rewrite H; lra]. }
  unfold timelineScenes in *. simpl timelineFrom in *.
  destruct (timelineFrom (0 + finalDuration s) rest) as [entries total] eqn:Etl.
  simpl fst in *.
  destruct Hc as [Hs0 [Hlt Hrest]]. simpl in Hs0, Hlt.
  pose proof (chained_endOf _ _ _ _ Hrest) as Hle.
  simpl in Hend, Hle.
  unfold renderPass. fold t.
  assert (E1 : Qle_bool (totalDuration (s :: rest)) t = false).
  { apply Qle_bool_false. rewrite Hend, Ht. lra. }
  rewrite E1. unfold currentScene. simpl find.
  assert (E2 : isActive t {| loaded := s; startTime := 0;
                             endTime := 0 + finalDuration s |} = true).
  { unfold isActive. apply andb_true_iff. split.
    - apply Qle_bool_iff. simpl. rewrite Ht. lra.
    - apply Qlt_bool_iff. simpl. rewrite Ht. lra. }
  rewrite E2. reflexivity.
Qed.

Lemma preroll_paints_first_scene_witness :
  renderPass (timelineScenes loadedA) (totalDuration loadedA) (1 # 10) 0
  = Painted (DrawImage "s0").
Proof.
  assert (Hpos : Forall (fun l => 0 < finalDuration l) loadedA)
    by (repeat constructor).
  assert (Hpre : 0 <= 1 # 10) by (apply Qle_bool_iff; reflexivity).
  exact (preroll_paints_first_scene _ _ (1 # 10) 0 Hpos Hpre).
Defined.

End Scheduling.

(** ** How exports fail and what they leave behind *)

Section Outcomes.

Import Exporter.

(** X19.  The ways an export rejects.  A video export rejects only for a
    missing 2D context, with the error of a scene whose image failed to
    load, or for an empty recording; an audio-only export rejects only for
    an empty recording: no image can fail it. *)
Theorem export_rejections (env : Env) (scenes : list Scene)
    (options : ExportOptions) (reason : string) :
  Run.outcome (exportVideo env scenes options) = Rejected reason ->
  match format options with
  | AudioOnly => reason = "Audio export failed: Empty file"
  | _ =>
      reason = "Could not create canvas context" \/
      (exists s, In s scenes /\ loadSceneImage env s = Rejected reason) \/
      reason = "Recording failed: Output file is empty."
  end.
Proof.
  assert (Hv : forall fmt aspect,
            Run.outcome (exportFrames env scenes fmt aspect) = Rejected reason ->
            reason = "Could not create canvas context" \/
            (exists s, In s scenes /\ loadSceneImage env s = Rejected reason) \/
            reason = "Recording failed: Output file is empty.").
  { intros fmt aspect. rewrite exportFrames_run.
    destruct (resolution fmt aspect) as [w h].
    destruct (canvasContext env).
    2:{ intros H. inversion H. now left. }
    destruct (preload env scenes) as [loadedScenes|r|] eqn:E.
    - destruct (executor_run env (timelineScenes loadedScenes)
                  (totalDuration loadedScenes)) as [frames [[_ H]|[_ H]]];
        rewrite H; [discriminate|].
      rewrite onstop_run. unfold Run.outcome. cbn [snd].
      destruct (size (videoBlob env) =? 0)%N; [|discriminate].
      intros Hr. inversion Hr. right. now right.
    - intros H. inversion H; subst r. right. left.
      apply Promise_all_rejected in E. apply in_map_iff in E.
      destruct E as [s [Hs Hin]]. exists s. split; [exact Hin|].
      now apply loadScene_rejected.
    - discriminate. }
  unfold exportVideo. destruct (format options); try apply Hv.
  rewrite exportAudioOnly_run.
  destruct (audioExecutor_run env (map (loadSceneAudio env) scenes) scenes)
    as [[_ H]|[_ H]]; rewrite H; [discriminate|].
  rewrite audio_onstop_run. unfold Run.outcome. cbn [snd].
  destruct (size (audioBlob env) =? 0)%N; [|discriminate].
  intros Hr. now inversion Hr.
Qed.

Lemma export_rejections_witness :
  "Failed to load image for scene 0" = "Could not create canvas context" \/
  (exists s,
     In s scenarioA /\
     loadSceneImage envBrokenImage s
     = Rejected "Failed to load image for scene 0") \/
  "Failed to load image for scene 0" = "Recording failed: Output file is empty.".
Proof.
  exact (export_rejections envBrokenImage scenarioA options1080
           "Failed to load image for scene 0" eq_refl).
Defined.

Lemma quiet_calls (p : Call -> bool) (l : list Call) :
  Forall (fun c => p c = false) l -> filter p l = [].
Proof.
  induction 1 as [|c rest Hc _ IH]; simpl; [reflexivity|].
  now rewrite Hc.
Qed.

Lemma scheduleAudio_quiet (p : Call -> bool) (start : number)
    (entries : list TimelineScene) :
  (forall i w, p (SourceStart i w) = false) ->
  filter p (scheduleAudio start entries) = [].
Proof.
  intros Hp. apply quiet_calls. rewrite scheduleAudio_sources.
  apply Forall_forall. intros c Hc. apply in_map_iff in Hc.
  destruct Hc as [e [<- _]]. apply Hp.
Qed.

Lemma paints_quiet (p : Call -> bool) (frames : list Frame) :
  (forall f, p (Paint f) = false) -> filter p (map Paint frames) = [].
Proof.
  intros Hp. apply quiet_calls. apply Forall_forall. intros c Hc.
  apply in_map_iff in Hc. destruct Hc as [f [<- _]]. apply Hp.
Qed.

Lemma scheduleBuffers_quiet (p : Call -> bool) (start total : number)
    (buffers : list (option AudioBuffer)) (scenes : list Scene) :
  (forall i w, p (SourceStart i w) = false) ->
  filter p (fst (scheduleBuffers start total buffers scenes)) = [].
Proof.
  intros Hp. apply quiet_calls. apply Forall_forall. intros c Hc.
  apply scheduleBuffers_sources in Hc. destruct Hc as [i [w ->]]. apply Hp.
Qed.

(** X21.  A video export that stops its recorder leaves nothing behind:
    it has stopped the canvas track and the destination track and closed
    the one audio context it opened. *)
Theorem stopped_video_export_is_clean (env : Env) (scenes : list Scene)
    (options : ExportOptions) :
  format options <> AudioOnly ->
  In RecorderStop (Run.calls (exportVideo env scenes options)) ->
  contextsLeftOpen (Run.calls (exportVideo env scenes options)) = 0%nat /\
  List.length (filter opensContext
                 (Run.calls (exportVideo env scenes options))) = 1%nat /\
  In (TrackStop CanvasVideoTrack)
     (Run.calls (exportVideo env scenes options)) /\
  In (TrackStop DestinationAudioTrack)
     (Run.calls (exportVideo env scenes options)).
Proof.
  intros Hfmt.
  assert (E : exportVideo env scenes options
              = exportFrames env scenes (format options) (aspectRatio options))
    by (unfold exportVideo; destruct (format options); congruence).
  rewrite E. intros Hin.
  destruct (finished_export_cleans_up env scenes _ _ Hin) as [Hc [Hd _]].
  assert (Hcount :
    List.length (filter opensContext
      (Run.calls (exportFrames env scenes (format options)
                    (aspectRatio options)))) = 1%nat /\
    List.length (filter closesContext
      (Run.calls (exportFrames env scenes (format options)
                    (aspectRatio options)))) = 1%nat).
  { destruct (exportFrames_ends env scenes (format options)
                (aspectRatio options)) as [[Hno _]|[before Hb]];
      [contradiction|]. clear Hb.
    revert Hin. rewrite exportFrames_run.
    destruct (resolution (format options) (aspectRatio options)) as [w h].
    destruct (canvasContext env).
    2:{ simpl. intros [H|[]]. discriminate H. }
    destruct (preload env scenes) as [loadedScenes|r|].
    2,3: simpl; intros H;
         repeat (destruct H as [H|H]; try discriminate H); contradiction.
    destruct (executor_run env (timelineScenes loadedScenes)
                (totalDuration loadedScenes)) as [frames [[_ H]|[_ H]]];
      rewrite H; unfold Run.calls; cbn [fst]; intros Hin.
    - exfalso. simpl in Hin.
      repeat (destruct Hin as [Hin|Hin]; try discriminate Hin).
      apply in_app_or in Hin. destruct Hin as [Hin|Hin].
      + rewrite scheduleAudio_sources in Hin. apply in_map_iff in Hin.
        destruct Hin as [e [He _]]. discriminate He.
      + destruct Hin as [Hin|Hin]; [discriminate Hin|].
        apply in_map_iff in Hin. destruct Hin as [f [Hf _]]. discriminate Hf.
    - rewrite onstop_run. unfold Run.calls. cbn [fst].
      split;
        repeat first
          [ rewrite filter_app
          | rewrite scheduleAudio_quiet by reflexivity
          | rewrite paints_quiet by reflexivity
          | progress cbn [app filter opensContext closesContext] ];
        reflexivity. }
  destruct Hcount as [Ho Hcl]. unfold contextsLeftOpen. rewrite Ho, Hcl.
  repeat split; assumption.
Qed.

Lemma stopped_video_export_is_clean_witness :
  contextsLeftOpen (Run.calls (exportVideo envA scenarioA options1080)) = 0%nat.
Proof.
  apply stopped_video_export_is_clean.
  - discriminate.
  - vm_compute. tauto.
Defined.

(** X22.  The audio-only export closes its audio context when it stops
    the recorder, but in no run does it stop a track of the stream it
    recorded. *)
Theorem audio_only_never_stops_tracks (env : Env) (scenes : list Scene) :
  (forall t, ~ In (TrackStop t) (Run.calls (exportAudioOnly env scenes))) /\
  (In RecorderStop (Run.calls (exportAudioOnly env scenes)) ->
   contextsLeftOpen (Run.calls (exportAudioOnly env scenes)) = 0%nat).
Proof.
  rewrite exportAudioOnly_run.
  destruct (audioExecutor_run env (map (loadSceneAudio env) scenes) scenes)
    as [[_ H]|[_ H]]; rewrite H; unfold Run.calls; cbn [fst]; split.
  - intros t Hin.
    repeat (destruct Hin as [Hin|Hin]; try discriminate Hin).
    apply scheduleBuffers_sources in Hin. destruct Hin as [i [w Hin]].
    discriminate Hin.
  - intros Hin. exfalso.
    repeat (destruct Hin as [Hin|Hin]; try discriminate Hin).
    apply scheduleBuffers_sources in Hin. destruct Hin as [i [w Hin]].
    discriminate Hin.
  - intros t Hin. rewrite audio_onstop_run in Hin.
    unfold Run.calls in Hin. cbn [fst] in Hin.
    repeat (destruct Hin as [Hin|Hin]; try discriminate Hin).
    apply in_app_or in Hin. destruct Hin as [Hin|Hin].
    + apply scheduleBuffers_sources in Hin. destruct Hin as [i [w Hin]].
      discriminate Hin.
    + repeat (destruct Hin as [Hin|Hin]; try discriminate Hin). exact Hin.
  - intros _. rewrite audio_onstop_run. unfold Run.calls. cbn [fst].
    unfold contextsLeftOpen.
    repeat first
      [ rewrite filter_app
      | rewrite scheduleBuffers_quiet by reflexivity
      | progress cbn [app filter opensContext closesContext] ];
    reflexivity.
Qed.

Lemma audio_only_never_stops_tracks_witness :
  contextsLeftOpen (Run.calls (exportAudioOnly envA scenarioA)) = 0%nat.
Proof.
  apply (proj2 (audio_only_never_stops_tracks envA scenarioA)).
  vm_compute. tauto.
Defined.

Lemma renderLoop_pending (entries : list TimelineScene) (total start : number)
    (readings : list number) :
  Forall (fun r => ~ total <= Math_max 0 (r - start)) readings ->
  snd (renderLoop entries total start readings) = Pending.
Proof.
  induction 1 as [|r later Hr _ IH]; simpl; [reflexivity|].
  unfold renderPass.
  destruct (Qle_bool total (Math_max 0 (r - start))) eqn:E;
    [apply Qle_bool_iff in E; contradiction|].
  unfold Run.bind, Run.call.
  destruct (currentScene entries (Math_max 0 (r - start)));
    destruct (renderLoop entries total start later) as [calls ended];
    simpl in *; now rewrite IH.
Qed.

Lemma audioLoop_pending (total start : number) (readings : list number) :
  Forall (fun r => ~ total <= r - start) readings ->
  snd (audioLoop total start readings) = Pending.
Proof.
  induction 1 as [|r later Hr _ IH]; simpl; [reflexivity|].
  destruct (Qle_bool total (r - start)) eqn:E;
    [apply Qle_bool_iff in E; contradiction | exact IH].
Qed.

(** X23.  A rejected preload ends the video export before it records
    anything.  The export rejects with the preload's error, and among the
    calls of its run there is no capture stream, no recorder constructed,
    started or stopped, no resumed context, no scheduled source and no
    drawn scene; the audio context it opened is not closed, and no track is
    stopped.  (The loads of the preload itself are the oracle's, not calls
    of the run.) *)
Theorem failed_preload_aborts_early (env : Env) (scenes : list Scene)
    (options : ExportOptions) (reason : string) :
  format options <> AudioOnly ->
  canvasContext env = true ->
  preload env scenes = Rejected reason ->
  let calls := Run.calls (exportVideo env scenes options) in
  Run.outcome (exportVideo env scenes options) = Rejected reason /\
  (forall fps, ~ In (CaptureStream fps) calls) /\
  (forall mimeType bits, ~ In (NewMediaRecorder mimeType bits) calls) /\
  ~ In AudioContextResume calls /\
  (forall sceneId when, ~ In (SourceStart sceneId when) calls) /\
  ~ In RecorderStart calls /\
  (forall sceneId, ~ In (Paint (DrawImage sceneId)) calls) /\
  ~ In RecorderStop calls /\
  (forall t, ~ In (TrackStop t) calls) /\
  In NewAudioContext calls /\
  ~ In AudioContextClose calls /\
  contextsLeftOpen calls = 1%nat.
Proof.
  intros Hfmt Hctx Hpre calls.
  assert (E : exportVideo env scenes options
              = exportFrames env scenes (format options) (aspectRatio options))
    by (unfold exportVideo; destruct (format options); congruence).
  unfold calls. rewrite E, exportFrames_run, Hctx, Hpre.
  destruct (resolution (format options) (aspectRatio options)) as [w h].
  unfold Run.calls, Run.outcome. cbn [fst snd].
  assert (Hout : forall c,
            In c [CreateCanvas w h; Paint FillBlack; NewAudioContext;
                  CreateMediaStreamDestination] ->
            c = CreateCanvas w h \/ c = Paint FillBlack \/
            c = NewAudioContext \/ c = CreateMediaStreamDestination).
  { intros c Hc. simpl in Hc.
    destruct Hc as [Hc|[Hc|[Hc|[Hc|[]]]]]; subst c; tauto. }
  split; [reflexivity|].
  repeat match goal with
         | |- _ /\ _ => split
         end;
    try (intros; intros Hin; apply Hout in Hin;
         destruct Hin as [Hin|[Hin|[Hin|Hin]]]; discriminate Hin).
  - simpl. tauto.
  - reflexivity.
Qed.

Lemma failed_preload_aborts_early_witness :
  Run.outcome (exportVideo envBrokenImage scenarioA options1080)
  = Rejected "Failed to load image for scene 0" /\
  ~ In RecorderStart
       (Run.calls (exportVideo envBrokenImage scenarioA options1080)) /\
  contextsLeftOpen
    (Run.calls (exportVideo envBrokenImage scenarioA options1080)) = 1%nat.
Proof.
  destruct (failed_preload_aborts_early envBrokenImage scenarioA
              options1080 "Failed to load image for scene 0"
              ltac:(discriminate) eq_refl eq_refl)
    as [Hout [_ [_ [_ [_ [Hstart [_ [_ [_ [_ [_ Hopen]]]]]]]]]]].
  split; [exact Hout|]. split; [exact Hstart | exact Hopen].
Defined.

(** X24.  The video export settles exactly when the audio clock gets
    there.  With a 2D context and every image loaded: if some clock
    reading puts the elapsed time at or beyond the total duration, the
    export settles, fulfilled with the captured blob or rejected as empty;
    if no reading does, its promise never settles. *)
Theorem video_export_settles_with_clock (env : Env) (scenes : list Scene)
    (options : ExportOptions) (loadedScenes : list LoadedScene) :
  format options <> AudioOnly ->
  canvasContext env = true ->
  preload env scenes = Fulfilled loadedScenes ->
  let reached := fun r =>
    totalDuration loadedScenes
    <= Math_max 0 (r - (clockAtResume env + (1 # 10))) in
  (Exists reached (clockReadings env) ->
   Run.outcome (exportVideo env scenes options)
   = if (size (videoBlob env) =? 0)%N
     then Rejected "Recording failed: Output file is empty."
     else Fulfilled (videoBlob env)) /\
  (Forall (fun r => ~ reached r) (clockReadings env) ->
   Run.outcome (exportVideo env scenes options) = Pending).
Proof.
  intros Hfmt Hctx Hpre reached.
  assert (E : exportVideo env scenes options
              = exportFrames env scenes (format options) (aspectRatio options))
    by (unfold exportVideo; destruct (format options); congruence).
  rewrite E, exportFrames_run, Hctx, Hpre.
  destruct (resolution (format options) (aspectRatio options)) as [w h].
  destruct (executor_run env (timelineScenes loadedScenes)
              (totalDuration loadedScenes)) as [frames [[Hl H]|[Hl H]]];
    rewrite H; unfold Run.outcome; cbn [snd]; split; intros Hclock.
  - apply (renderLoop_stops (timelineScenes loadedScenes)) in Hclock.
    congruence.
  - reflexivity.
  - now rewrite onstop_run.
  - apply (renderLoop_pending (timelineScenes loadedScenes)) in Hclock.
    congruence.
Qed.

Lemma video_export_settles_with_clock_witness :
  Run.outcome (exportVideo envA scenarioA options1080)
  = if (size (videoBlob envA) =? 0)%N
    then Rejected "Recording failed: Output file is empty."
    else Fulfilled (videoBlob envA).
Proof.
  apply (proj1 (video_export_settles_with_clock envA scenarioA options1080
                  loadedA ltac:(discriminate) eq_refl eq_refl)).
  do 4 apply Exists_cons_tl. apply Exists_cons_hd.
  apply Qle_bool_iff. reflexivity.
Defined.

(** X25.  The audio-only export settles exactly when the clock, read
    without clamping, has run the total of the scene durations past its
    start time; images play no part. *)
Theorem audio_export_settles_with_clock (env : Env) (scenes : list Scene) :
  let startTime := clockAtResume env + (1 # 10) in
  let total :=
    snd (scheduleBuffers startTime 0 (map (loadSceneAudio env) scenes) scenes) in
  (Exists (fun r => total <= r - startTime) (clockReadings env) ->
   Run.outcome (exportAudioOnly env scenes)
   = if (size (audioBlob env) =? 0)%N
     then Rejected "Audio export failed: Empty file"
     else Fulfilled (audioBlob env)) /\
  (Forall (fun r => ~ total <= r - startTime) (clockReadings env) ->
   Run.outcome (exportAudioOnly env scenes) = Pending).
Proof.
  intros startTime total. rewrite exportAudioOnly_run.
  destruct (audioExecutor_run env (map (loadSceneAudio env) scenes) scenes)
    as [[Hl H]|[Hl H]]; rewrite H; unfold Run.outcome; cbn [snd];
    split; intros Hclock.
  - apply audioLoop_stops in Hclock. unfold total, startTime in Hclock.
    congruence.
  - reflexivity.
  - now rewrite audio_onstop_run.
  - apply audioLoop_pending in Hclock. unfold total, startTime in Hclock.
    congruence.
Qed.

Lemma audio_export_settles_with_clock_witness :
  Run.outcome (exportAudioOnly envA scenarioA)
  = if (size (audioBlob envA) =? 0)%N
    then Rejected "Audio export failed: Empty file"
    else Fulfilled (audioBlob envA).
Proof.
  apply (proj1 (audio_export_settles_with_clock envA scenarioA)).
  do 4 apply Exists_cons_tl. apply Exists_cons_hd.
  apply Qle_bool_iff. reflexivity.
Defined.

End Outcomes.

(** ** The WAV wrapper *)

Section Wav.

Import AudioUtils.

Lemma le32_shape (v : Z) :
  exists b0 b1 b2 b3,
    le32 v = [b0; b1; b2; b3] /\
    (b0 + 256 * b1 + 65536 * b2 + 16777216 * b3 = v mod 4294967296)%Z.
Proof.
  unfold le32. do 4 eexists. split; [reflexivity|].
  Z.div_mod_to_equations. lia.
Qed.

(** The header, byte for byte: the writes neither overlap nor leave a gap. *)
Lemma wavHeader_bytes (len rate : Z) :
  wavHeader len rate
  = Some ([82; 73; 70; 70] ++ le32 (36 + len)
          ++ [87; 65; 86; 69; 102; 109; 116; 32]
          ++ [16; 0; 0; 0; 1; 0; 1; 0] ++ le32 rate ++ le32 (rate * 2)
          ++ [2; 0; 16; 0; 100; 97; 116; 97] ++ le32 len)%Z%list.
Proof.
  unfold wavHeader, setUint32.
  destruct (le32_shape (36 + len)) as [a0 [a1 [a2 [a3 [Ea _]]]]].
  destruct (le32_shape rate) as [r0 [r1 [r2 [r3 [Er _]]]]].
  destruct (le32_shape (rate * 2)) as [s0 [s1 [s2 [s3 [Es _]]]]].
  destruct (le32_shape len) as [d0 [d1 [d2 [d3 [Ed _]]]]].
  rewrite Ea, Er, Es, Ed. vm_compute. reflexivity.
Qed.

(** The wrapped file is the header followed by the PCM bytes. *)
Lemma wav_payload (bytes : list Z) (sampleRate : Z) :
  exists wav,
    createWavUrlFromPcmBytes bytes sampleRate = Some wav /\
    skipn 44 wav = bytes.
Proof.
  unfold createWavUrlFromPcmBytes. rewrite wavHeader_bytes.
  destruct (le32_shape (36 + Z.of_nat (List.length bytes)))
    as [a0 [a1 [a2 [a3 [Ea _]]]]].
  destruct (le32_shape sampleRate) as [r0 [r1 [r2 [r3 [Er _]]]]].
  destruct (le32_shape (sampleRate * 2)) as [s0 [s1 [s2 [s3 [Es _]]]]].
  destruct (le32_shape (Z.of_nat (List.length bytes)))
    as [d0 [d1 [d2 [d3 [Ed _]]]]].
  rewrite Ea, Er, Es, Ed. eexists. split; reflexivity.
Qed.

(** X26.  Wrapping never fails and loses nothing: for any PCM bytes and
    sample rate the result is a 44-byte header that begins with RIFF,
    carries WAVE, fmt and data at offsets 8, 12 and 36, and is followed by
    the PCM bytes unchanged. *)
Theorem wav_wraps_pcm (bytes : list Z) (sampleRate : Z) :
  exists wav,
    createWavUrlFromPcmBytes bytes sampleRate = Some wav /\
    List.length wav = (44 + List.length bytes)%nat /\
    skipn 44 wav = bytes /\
    firstn 4 wav = [82; 73; 70; 70]%Z /\
    firstn 8 (skipn 8 wav) = [87; 65; 86; 69; 102; 109; 116; 32]%Z /\
    firstn 4 (skipn 36 wav) = [100; 97; 116; 97]%Z.
Proof.
  unfold createWavUrlFromPcmBytes. rewrite wavHeader_bytes.
  destruct (le32_shape (36 + Z.of_nat (List.length bytes)))
    as [a0 [a1 [a2 [a3 [Ea _]]]]].
  destruct (le32_shape sampleRate) as [r0 [r1 [r2 [r3 [Er _]]]]].
  destruct (le32_shape (sampleRate * 2)) as [s0 [s1 [s2 [s3 [Es _]]]]].
  destruct (le32_shape (Z.of_nat (List.length bytes)))
    as [d0 [d1 [d2 [d3 [Ed _]]]]].
  rewrite Ea, Er, Es, Ed. eexists. split; [reflexivity|].
  cbn [app]. repeat split; reflexivity.
Qed.

(** X27.  The header describes its content.  Read back little-endian, the
    data size at offset 40 is the number of PCM bytes and the RIFF size at
    offset 4 is 36 more, both modulo 2^32; the rate at offset 24 is the
    sample rate and the byte rate at offset 28 twice that; the format is
    PCM, one channel, two bytes per frame, 16 bits per sample. *)
Theorem wav_header_fields (bytes : list Z) (sampleRate : Z) :
  exists wav,
    createWavUrlFromPcmBytes bytes sampleRate = Some wav /\
    getUint32 wav 40 = Some (Z.of_nat (List.length bytes) mod 4294967296)%Z /\
    getUint32 wav 4
      = Some ((36 + Z.of_nat (List.length bytes)) mod 4294967296)%Z /\
    getUint32 wav 24 = Some (sampleRate mod 4294967296)%Z /\
    getUint32 wav 28 = Some ((sampleRate * 2) mod 4294967296)%Z /\
    getUint32 wav 16 = Some 16%Z /\
    getUint16 wav 20 = Some 1%Z /\
    getUint16 wav 22 = Some 1%Z /\
    getUint16 wav 32 = Some 2%Z /\
    getUint16 wav 34 = Some 16%Z.
Proof.
  unfold createWavUrlFromPcmBytes. rewrite wavHeader_bytes.
  destruct (le32_shape (36 + Z.of_nat (List.length bytes)))
    as [a0 [a1 [a2 [a3 [Ea Va]]]]].
  destruct (le32_shape sampleRate) as [r0 [r1 [r2 [r3 [Er Vr]]]]].
  destruct (le32_shape (sampleRate * 2)) as [s0 [s1 [s2 [s3 [Es Vs]]]]].
  destruct (le32_shape (Z.of_nat (List.length bytes)))
    as [d0 [d1 [d2 [d3 [Ed Vd]]]]].
  rewrite Ea, Er, Es, Ed. eexists. split; [reflexivity|].
  unfold getUint32, getUint16. cbn [app skipn].
  rewrite Va, Vr, Vs, Vd. repeat split; reflexivity.
Qed.

Lemma setBytes_fill (done chunk : list Z) (m : nat) :
  setBytes (done ++ repeat 0%Z (List.length chunk + m)) (List.length done) chunk
  = Some ((done ++ chunk) ++ repeat 0%Z m)%list.
Proof.
  unfold setBytes.
  rewrite length_app, repeat_length.
  destruct (List.length done + List.length chunk
            <=? List.length done + (List.length chunk + m))%nat eqn:E;
    [|apply Nat.leb_gt in E; lia].
  f_equal.
  rewrite firstn_app, firstn_all, Nat.sub_diag, firstn_O, app_nil_r.
  rewrite skipn_app, skipn_all2 by lia.
  replace (List.length done + List.length chunk - List.length done)%nat
    with (List.length chunk) by lia.
  rewrite repeat_app, skipn_app, repeat_length, skipn_all2
    by (rewrite repeat_length; lia).
  rewrite Nat.sub_diag. simpl. now rewrite <- app_assoc.
Qed.

Lemma copyChunks_concat (pcmChunks : list (list Z)) :
  forall done,
    copyChunks (done ++ repeat 0%Z (List.length (List.concat pcmChunks)))
               (List.length done) pcmChunks
    = Some (done ++ List.concat pcmChunks)%list.
Proof.
  induction pcmChunks as [|chunk rest IH]; intros done; simpl.
  - now rewrite app_nil_r.
  - rewrite length_app, setBytes_fill. simpl.
    rewrite <- length_app, IH. now rewrite <- app_assoc.
Qed.

Lemma totalLength_concat (pcmChunks : list (list Z)) :
  forall acc,
    fold_left (fun acc chunk => (acc + List.length chunk)%nat) pcmChunks acc
    = (acc + List.length (List.concat pcmChunks))%nat.
Proof.
  induction pcmChunks as [|chunk rest IH]; intros acc; simpl.
  - lia.
  - rewrite IH, length_app. lia.
Qed.

(** X28.  Assembling the speech.  With no chunk the assembly fails with
    "Failed to generate audio chunks".  Otherwise it never fails, and the
    file it wraps holds the chunks end to end, in order, nothing lost and
    nothing overwritten, at 24000 samples per second. *)
Theorem speech_is_the_chunks_in_order (pcmChunks : list (list Z)) :
  assembleSpeech [] = Rejected "Failed to generate audio chunks" /\
  (pcmChunks <> [] ->
   exists wav,
     assembleSpeech pcmChunks = Fulfilled wav /\
     createWavUrlFromPcmBytes (List.concat pcmChunks) 24000 = Some wav /\
     skipn 44 wav = List.concat pcmChunks).
Proof.
  split; [reflexivity|]. intros Hne.
  destruct (wav_payload (List.concat pcmChunks) 24000) as [wav [Hw Hs]].
  exists wav. split; [|split; [exact Hw | exact Hs]].
  unfold assembleSpeech.
  destruct pcmChunks as [|chunk rest]; [contradiction|].
  cbn [List.length Nat.eqb].
  rewrite totalLength_concat. cbn [Nat.add].
  pose proof (copyChunks_concat (chunk :: rest) []) as Hc.
  cbn [app List.length] in Hc. rewrite Hc.
  cbn [andThen]. now rewrite Hw.
Qed.

Lemma speech_is_the_chunks_in_order_witness :
  exists wav,
    assembleSpeech [[1; 2]; [3]]%Z = Fulfilled wav /\
    createWavUrlFromPcmBytes (List.concat [[1; 2]; [3]]%Z) 24000 = Some wav /\
    skipn 44 wav = List.concat [[1; 2]; [3]]%Z.
Proof.
  apply (proj2 (speech_is_the_chunks_in_order [[1; 2]; [3]]%Z)).
  discriminate.
Defined.

End Wav.

(** ** Retrying with backoff *)

Section Retry.

Import Gemini.

Context {A : Type}.

Lemma backoff_succ (delay : Z) (n : nat) :
  backoff delay (S n) = delay :: backoff (delay * 2) n.
Proof.
  unfold backoff. cbn [seq map]. f_equal; [cbn; lia|].
  rewrite <- seq_shift, map_map. apply map_ext. intros k.
  rewrite Nat2Z.inj_succ, Z.pow_succ_r by lia. lia.
Qed.

Lemma backoff_sum (n : nat) :
  forall delay,
    fold_left Z.add (backoff delay n) 0%Z
    = (delay * (2 ^ Z.of_nat n - 1))%Z.
Proof.
  induction n as [|n IH]; intros delay.
  - cbn. lia.
  - rewrite backoff_succ. cbn [fold_left].
    assert (Hacc : forall l a, fold_left Z.add l a
                               = (a + fold_left Z.add l 0)%Z).
    { induction l as [|x l IHl]; intros a; cbn [fold_left]; [lia|].
      rewrite (IHl (a + x)%Z), (IHl (0 + x)%Z). lia. }
    rewrite Hacc, IH, Nat2Z.inj_succ, Z.pow_succ_r by lia. lia.
Qed.

(** X29.  The backoff is bounded.  Whatever the calls do, the retried
    call waits at most [retries] times, the first time [delay] and each
    further time twice as long, so it waits delay * (2^n - 1) in all after
    n waits; and an error is passed on only if it is not a rate limit or
    after every retry has been used. *)
Theorem retry_backoff_is_bounded (attempts : list (Attempt A)) :
  forall retries delay,
    let waits := fst (retryWithBackoff attempts retries delay) in
    (List.length waits <= retries)%nat /\
    (List.length waits <= List.length attempts)%nat /\
    waits = backoff delay (List.length waits) /\
    fold_left Z.add waits 0%Z
      = (delay * (2 ^ Z.of_nat (List.length waits) - 1))%Z /\
    (forall err,
       snd (retryWithBackoff attempts retries delay) = Thrown err ->
       isRateLimit err = false \/ List.length waits = retries).
Proof.
  assert (Hcore : forall retries delay,
    let waits := fst (retryWithBackoff attempts retries delay) in
    (List.length waits <= retries)%nat /\
    (List.length waits <= List.length attempts)%nat /\
    waits = backoff delay (List.length waits) /\
    (forall err,
       snd (retryWithBackoff attempts retries delay) = Thrown err ->
       isRateLimit err = false \/ List.length waits = retries)).
  { induction attempts as [|a rest IH]; intros retries delay; cbn zeta.
    - cbn. repeat split; try lia. intros err H. discriminate H.
    - destruct a as [v|e]; cbn [retryWithBackoff].
      + cbn. repeat split; try lia. intros err H. discriminate H.
      + destruct retries as [|fewer].
        * cbn. repeat split; try lia.
        * destruct (isRateLimit e) eqn:E.
          -- specialize (IH fewer (delay * 2)%Z). cbn zeta in IH.
             destruct (retryWithBackoff rest fewer (delay * 2)) as [waits ended].
             cbn [fst snd] in *. destruct IH as [H1 [H2 [H3 H4]]].
             cbn [List.length]. repeat split; try lia.
             ++ rewrite backoff_succ. now rewrite <- H3.
             ++ intros err Herr. destruct (H4 err Herr) as [H|H];
                  [now left | right; lia].
          -- cbn. repeat split; try lia. intros err H.
             inversion H; subst. now left. }
  intros retries delay waits.
  destruct (Hcore retries delay) as [H1 [H2 [H3 H4]]]. fold waits in H1, H2, H3, H4.
  repeat split; try assumption.
  rewrite H3 at 1. apply backoff_sum.
Qed.

(** X30.  What the retried call returns.  After any number of rate-limit
    errors not above [retries], the first call that returns gives the
    result and the first error that is not a rate limit is passed on at
    once; a rate limit that outlasts the retries is passed on after
    [retries] waits.  In each case the waits are the backoff delays. *)
Theorem retry_ends_with_first_answer (limited : list ApiError)
    (later : list (Attempt A)) (retries : nat) (delay : Z) :
  Forall (fun e => isRateLimit e = true) limited ->
  (forall value,
     (List.length limited <= retries)%nat ->
     retryWithBackoff (map Throws limited ++ Returns value :: later)%list
                      retries delay
     = (backoff delay (List.length limited), Returned value)) /\
  (forall err,
     (List.length limited <= retries)%nat -> isRateLimit err = false ->
     retryWithBackoff (map Throws limited ++ Throws err :: later)%list
                      retries delay
     = (backoff delay (List.length limited), Thrown err)) /\
  (forall err,
     List.length limited = retries ->
     retryWithBackoff (map Throws limited ++ Throws err :: later)%list
                      retries delay
     = (backoff delay retries, Thrown err)).
Proof.
  intros Hlim. revert retries delay.
  induction Hlim as [|e rest He _ IH]; intros retries delay.
  - cbn [map app List.length retryWithBackoff].
    split; [|split].
    + intros value _. reflexivity.
    + intros err _ Herr. destruct retries; [reflexivity|].
      now rewrite Herr.
    + intros err <-. reflexivity.
  - cbn [map app List.length retryWithBackoff]. rewrite He.
    split; [|split].
    + intros value Hle. destruct retries as [|fewer]; [lia|].
      destruct (IH fewer (delay * 2)%Z) as [H _].
      rewrite (H value) by lia. now rewrite backoff_succ.
    + intros err Hle Herr. destruct retries as [|fewer]; [lia|].
      destruct (IH fewer (delay * 2)%Z) as [_ [H _]].
      rewrite (H err) by (lia || assumption). now rewrite backoff_succ.
    + intros err <-.
      destruct (IH (List.length rest) (delay * 2)%Z) as [_ [_ H]].
      rewrite (H err eq_refl). now rewrite backoff_succ.
Qed.

End Retry.

Lemma retry_ends_with_first_answer_witness :
  Gemini.retryWithBackoff
    (map Gemini.Throws
       [ Gemini.mkError (Some 429%Z) None None None "{}" None None ]
     ++ Gemini.Returns 7%nat :: [])%list 5 5000
  = (backoff 5000 1, Gemini.Returned 7%nat).
Proof.
  apply (proj1 (retry_ends_with_first_answer
                  [ Gemini.mkError (Some 429%Z) None None None "{}" None None ]
                  [] 5 5000 ltac:(repeat constructor))).
  simpl. lia.
Defined.

Lemma retry_backoff_is_bounded_witness :
  Gemini.isRateLimit
    (Gemini.mkError (Some 429%Z) None None None "{}" None None) = false \/
  List.length
    (fst (Gemini.retryWithBackoff
            [ Gemini.Throws
                (Gemini.mkError (Some 429%Z) None None None "{}" None None);
              @Gemini.Throws nat
                (Gemini.mkError (Some 429%Z) None None None "{}" None None) ]
            1 5000)) = 1%nat.
Proof.
  apply (proj2 (proj2 (proj2 (proj2
           (retry_backoff_is_bounded
              [ Gemini.Throws
                  (Gemini.mkError (Some 429%Z) None None None "{}" None None);
                @Gemini.Throws nat
                  (Gemini.mkError (Some 429%Z) None None None "{}" None None) ]
              1 5000))))).
  reflexivity.
Defined.

(** ** The whole preview against the whole export *)

Section PreviewTotal.

Lemma player_duration_le_export (audioBuffer : option AudioBuffer)
    (scene : Scene) :
  option_map duration audioBuffer = audioDuration scene ->
  Player.durationOf scene <= Exporter.finalDurationOf audioBuffer scene.
Proof.
  intros Hlen. unfold Player.durationOf, Exporter.finalDurationOf.
  rewrite Hlen.
  destruct (isSet_dec (manualDuration scene)) as [[m [Hm Hn]]|Hm].
  - rewrite (jsOrOpt_set _ (audioDuration scene) m Hm Hn).
    rewrite (jsOr_set _ (estimatedDuration scene) m Hm Hn).
    rewrite (jsOr_set (Some m) (estimatedDuration scene) m eq_refl Hn).
    rewrite (jsOr_set (Some m) 5 m eq_refl Hn).
    split_max. destruct HM as [[? ?]|[? ?]], HM0 as [[? ?]|[? ?]]; lra.
  - rewrite (jsOrOpt_unset _ (audioDuration scene) Hm).
    rewrite (jsOr_unset _ (estimatedDuration scene) Hm).
    destruct (isSet_dec (audioDuration scene)) as [[a [Ha Hna]]|Ha].
    + rewrite (jsOr_set _ (estimatedDuration scene) a Ha Hna).
      rewrite (jsOr_set (Some a) 5 a eq_refl Hna).
      rewrite (jsOr_set _ 0 a Ha Hna).
      generalize (jsOr (Some (estimatedDuration scene)) 5). intros c.
      split_max. destruct HM as [[? ?]|[? ?]], HM0 as [[? ?]|[? ?]]; lra.
    + rewrite (jsOr_unset _ (estimatedDuration scene) Ha).
      rewrite (jsOr_unset _ 0 Ha).
      generalize (jsOr (Some (estimatedDuration scene)) 5). intros c.
      split_max. destruct HM as [[? ?]|[? ?]], HM0 as [[? ?]|[? ?]]; lra.
Qed.

Lemma totals_le (loadedScenes : list Exporter.LoadedScene) :
  Forall (fun l => Player.durationOf (Exporter.scene l)
                   <= Exporter.finalDuration l) loadedScenes ->
  forall a b,
    a <= b ->
    fold_left Qplus
      (map Player.durationOf (map Exporter.scene loadedScenes)) a
    <= fold_left Qplus (map Exporter.finalDuration loadedScenes) b.
Proof.
  induction 1 as [|l rest Hl _ IH]; intros a b Hab; simpl.
  - exact Hab.
  - apply IH. lra.
Qed.

(** X20.  The preview is never longer than the export.  When the images
    of a scene list load and every decoded buffer has the length recorded
    in its scene, the total duration the player shows for the list is at
    most the total duration the exporter renders. *)
Theorem preview_total_never_longer (env : Env) (scenes : list Scene)
    (loadedScenes : list Exporter.LoadedScene) :
  Exporter.preload env scenes = Fulfilled loadedScenes ->
  Forall (fun l => option_map duration (Exporter.audioBuffer l)
                   = audioDuration (Exporter.scene l)) loadedScenes ->
  Player.totalDuration (Player.timeline scenes)
  <= Exporter.totalDuration loadedScenes.
Proof.
  intros Hpre Hlen.
  destruct (preload_buffers env scenes loadedScenes Hpre) as [Hs [_ Hrule]].
  unfold Player.timeline, Exporter.totalDuration.
  rewrite player_total, player_endOf, timelineFrom_total, <- Hs.
  apply totals_le; [|lra].
  rewrite Forall_forall in *. intros l Hl.
  rewrite (Hrule l Hl). apply player_duration_le_export. now apply Hlen.
Qed.

Lemma preview_total_never_longer_witness :
  Player.totalDuration (Player.timeline scenarioA)
  <= Exporter.totalDuration loadedA.
Proof.
  apply (preview_total_never_longer envA scenarioA loadedA eq_refl).
  repeat constructor.
Defined.

End PreviewTotal.
